(** * triton-viz: the trace recorder of [triton_viz/interpreter.py]

    A shallow embedding of the recorder ([RecordBuilder]), the floor lookup of
    a pointer in the sorted tensor list, the out-of-bounds masks and the
    storage-contiguity gate, followed by the properties proved about them.

    Conventions of the embedding:
    - Python integers are [Z].  The arrays of addresses the interpreter hands
      in and the base address of a tensor are NumPy [uint64], and [np.prod]
      of a shape is an [int64]: their arithmetic is 64-bit, with the
      wrap-around written out ([wrap_uint64], [wrap_int64]).
    - A NumPy array is its shape together with its elements in row-major
      order, so that [np.reshape(a, (-1))] is the element list.
    - The recorder is a mutable singleton: every operation is a function from
      the recorder state to an outcome and the state left behind, also when
      the outcome is an exception. *)

From stdpp Require Import base numbers list sorting strings.

Local Open Scope Z_scope.

(** ** Exceptions and the recorder monad *)

Inductive exn : Set :=
| AssertionError
| IndexError.

Inductive res (A : Type) : Type :=
| Ok (a : A)
| Raise (e : exn).
Arguments Ok {A} a.
Arguments Raise {A} e.

Definition res_bind {A B} (m : res A) (k : A → res B) : res B :=
  match m with
  | Ok a => k a
  | Raise e => Raise e
  end.

Definition is_ok {A} (m : res A) : Prop :=
  match m with Ok _ => True | Raise _ => False end.

(** [range(n)] for an integer [n]: empty when [n <= 0]. *)
Definition range (n : Z) : list Z := seqZ 0 n.

(** ** [sorted(l, key=...)]

    Python's [sorted] is stable; what a stable sort returns is determined by
    the input and the keys, so it is modelled by the stable insertion sort. *)
Section py_sorted.
Context {A : Type} (key : A → Z).

Fixpoint insert_by (x : A) (l : list A) : list A :=
  match l with
  | [] => [x]
  | y :: l' =>
      if bool_decide (key x ≤ key y) then x :: y :: l'
      else y :: insert_by x l'
  end.

Definition sorted (l : list A) : list A := foldr insert_by [] l.

(** Ascending in the key. *)
Definition key_le (a b : A) : Prop := key a ≤ key b.

(** Ascending in the key, and by [before] among equal keys. *)
Definition key_then (before : relation A) (a b : A) : Prop :=
  key a < key b ∨ (key a = key b ∧ before a b).
End py_sorted.

(** ** Data model *)

(** Modelled from the spec: [data.py], which declares [Tensor], [Launch] and
    the record classes, is not among the sources.  The fields of [Tensor] are
    those of the constructor call in [_grid_executor_call] and the attributes
    read by [get_tensor_ptr] and [check_out_of_bounds_access]. *)
Record Tensor : Type := mkTensor {
  ptr : Z;
  dtype : string;
  stride : list Z;
  shape : list Z;
  element_size : Z
}.

(** A NumPy array: shape and row-major elements. *)
Record ndarray (A : Type) : Type := mkArray {
  nd_shape : list Z;
  nd_data : list A
}.
Arguments mkArray {A} nd_shape nd_data.
Arguments nd_shape {A} n.
Arguments nd_data {A} n.

Definition nd_map {A B} (f : A → B) (a : ndarray A) : ndarray B :=
  mkArray (nd_shape a) (f <$> nd_data a).

(** Elementwise combination of two arrays of one shape (no broadcasting). *)
Definition nd_zip_with {A B C} (f : A → B → C)
    (a : ndarray A) (b : ndarray B) : ndarray C :=
  mkArray (nd_shape a) (zip_with f (nd_data a) (nd_data b)).

(** Modelled from the spec: the record classes of [data.py], with the keyword
    arguments the wrappers of [interpreter.py] pass to them. *)
Inductive trace_record : Type :=
| Grid (idx : Z * Z * Z)
| Load (ptr : Z) (shape : list Z) (offsets : ndarray Z) (masks : ndarray bool)
       (invalid_access_masks : ndarray bool) (original_offsets : ndarray Z)
       (original_mask : ndarray bool)
| Store (ptr : Z) (shape : list Z) (offsets : ndarray Z) (masks : ndarray bool)
        (invalid_access_masks : ndarray bool) (original_offsets : ndarray Z)
        (original_mask : ndarray bool)
| BinaryOp (op : string) (input_shape output_shape : list Z)
| MakeRange (start end_ : Z)
| ExpandDims (input_shape : list Z) (index : Z) (output_shape : list Z)
| Dot (input_shape : list Z * list Z) (other_shape output_shape : list Z)
| Reduce (input_shape : list Z) (index : option Z) (op : string)
         (keep_dims : bool) (output_shape : list Z).

(** Modelled from the spec: [Launch] of [data.py], built in [set_grid_dim] as
    [Launch((nx, ny, nz), [], [])]. *)
Record Launch : Type := mkLaunch {
  grid : Z * Z * Z;
  tensors : list Tensor;
  records : list trace_record
}.

(** The attributes of [RecordBuilder]. *)
Record RecordBuilder : Type := mkBuilder {
  launches : list Launch;
  sampling_grid_idx : option (list Z);
  grid_idx : Z * Z * Z;
  grid_dim : Z * Z * Z
}.

Definition M (A : Type) : Type := RecordBuilder → res A * RecordBuilder.

#[global] Instance M_ret : MRet M := λ A a st, (Ok a, st).
#[global] Instance M_bind : MBind M := λ A B k m st,
  match m st with
  | (Ok a, st') => k a st'
  | (Raise e, st') => (Raise e, st')
  end.

Definition raise {A} (e : exn) : M A := λ st, (Raise e, st).
Definition get : M RecordBuilder := λ st, (Ok st, st).
Definition put (st : RecordBuilder) : M unit := λ _, (Ok (), st).
Definition lift {A} (r : res A) : M A := λ st, (r, st).

(** [assert b] *)
Definition assert (b : bool) : M unit :=
  if b then mret () else raise AssertionError.

(** [for x in l: body(x)] *)
Fixpoint for_ {A} (l : list A) (body : A → M unit) : M unit :=
  match l with
  | [] => mret ()
  | x :: l' => body x;; for_ l' body
  end.

(** ** [_check_storage_contiguous] *)

(** A tensor argument as the executor sees it: [data_ptr()], [dtype],
    [stride()], [shape] and [element_size()]. *)
Record torch_tensor : Type := mkTorch {
  data_ptr : Z;
  t_dtype : string;
  t_stride : list Z;
  t_shape : list Z;
  t_element_size : Z
}.

(** [l[i]], raising [IndexError] out of range. *)
Definition getitem {A} (l : list A) (i : nat) : res A :=
  match l !! i with
  | Some x => Ok x
  | None => Raise IndexError
  end.

(** [sorted(range(len(tensor.stride())), key=tensor.stride().__getitem__)] *)
Definition stride_order (t : torch_tensor) : list nat :=
  sorted (λ i, default 0 (t_stride t !! i)) (seq 0 (length (t_stride t))).

(** The loop over [enumerate(indices)]: [i] is the position reached,
    [shape_prod] the running product, [indices] what is left to walk. *)
Fixpoint contiguous_walk (t : torch_tensor) (i : nat) (shape_prod : Z)
    (indices : list nat) : res bool :=
  match indices with
  | [] => Ok true
  | index :: rest =>
      res_bind (getitem (t_stride t) index) (λ stride,
      res_bind (getitem (t_shape t) index) (λ shape,
        if bool_decide (i = 0%nat) && bool_decide (stride ≠ 1) then Ok false
        else if bool_decide (i ≠ 0%nat) && bool_decide (stride ≠ shape_prod)
        then Ok false
        else contiguous_walk t (S i) (shape_prod * shape) rest))
  end.

Definition _check_storage_contiguous (t : torch_tensor) : res bool :=
  contiguous_walk t 0 1 (stride_order t).


(** ** [RecordBuilder] *)

(** The state [reset] installs. *)
Definition fresh : RecordBuilder := mkBuilder [] None (0, 0, 0) (1, 1, 1).

Definition reset : M unit := put fresh.

Definition set_sampling_grid_idx (idx : list Z) : M unit := λ st,
  (Ok (), mkBuilder (launches st) (Some idx) (grid_idx st) (grid_dim st)).

Definition set_grid_dim (nx ny nz : Z) : M unit := λ st,
  (Ok (), mkBuilder (launches st ++ [mkLaunch (nx, ny, nz) [] []])
                    (sampling_grid_idx st) (grid_idx st) (nx, ny, nz)).

(** [self._launches[-1]], read and written back. *)
Definition active_launch : M Launch := λ st,
  match last (launches st) with
  | Some l => (Ok l, st)
  | None => (Raise IndexError, st)
  end.

Definition set_active_launch (l : Launch) : M unit := λ st,
  (Ok (), mkBuilder (<[pred (length (launches st)) := l]> (launches st))
                    (sampling_grid_idx st) (grid_idx st) (grid_dim st)).

(** The local function [_to_1d_grid] of [add_record]; it falls off its end,
    returning [None], for a tuple of no or of more than three components. *)
Definition _to_1d_grid (dim : Z * Z * Z) (idx : list Z) : option Z :=
  let '(_, dim1, dim2) := dim in
  match idx with
  | [a] => Some a
  | [a; b] => Some (a * dim1 + b)
  | [a; b; c] => Some (a * dim1 * dim2 + b * dim2 + c)
  | _ => None
  end.

(** Python truth value of [self._sampling_grid_idx]: [None] and the empty
    tuple are false. *)
Definition truthy (o : option (list Z)) : bool :=
  match o with
  | None | Some [] => false
  | Some (_ :: _) => true
  end.

Definition tuple3 (idx : Z * Z * Z) : list Z :=
  let '(x, y, z) := idx in [x; y; z].

(** The condition of [add_record]. *)
Definition sampled (st : RecordBuilder) : bool :=
  negb (truthy (sampling_grid_idx st))
  || bool_decide (sampling_grid_idx st ≫= _to_1d_grid (grid_dim st)
                  = _to_1d_grid (grid_dim st) (tuple3 (grid_idx st))).

Definition add_record (record : trace_record) : M unit :=
  st ← get;
  if sampled st then
    l ← active_launch;
    set_active_launch (mkLaunch (grid l) (tensors l) (records l ++ [record]))
  else mret ().

Definition set_grid_idx (x y z : Z) : M unit :=
  st ← get;
  let '(nx, ny, nz) := grid_dim st in
  assert (bool_decide (x < nx));;
  assert (bool_decide (y < ny));;
  assert (bool_decide (z < nz));;
  put (mkBuilder (launches st) (sampling_grid_idx st) (x, y, z) (grid_dim st));;
  add_record (Grid (x, y, z)).

Definition add_tensors (ts : list Tensor) : M unit :=
  l ← active_launch;
  set_active_launch (mkLaunch (grid l) (tensors l ++ ts) (records l)).

Definition sort_tensor_handles : M unit :=
  launch ← active_launch;
  set_active_launch
    (mkLaunch (grid launch) (sorted ptr (tensors launch)) (records launch)).

(** The loop of [get_tensor_ptr]: [ts] is [tensors[i:]], and [break] returns
    the index held so far. *)
Fixpoint floor_index (p : Z) (i ret_idx : nat) (ts : list Tensor) : nat :=
  match ts with
  | [] => ret_idx
  | t :: ts' =>
      if bool_decide (p < ptr t) then ret_idx else floor_index p (S i) i ts'
  end.

Definition get_tensor_ptr (p : Z) : M Tensor :=
  l ← active_launch;
  lift (getitem (tensors l) (floor_index p 0 0 (tensors l))).

(** ** [check_out_of_bounds_access] *)

(** The product of a list of Python integers, which do not overflow: the
    accumulator [shape_prod] of [_check_storage_contiguous], and the size of
    a tensor as a mathematical integer. *)
Definition prod (l : list Z) : Z := foldr Z.mul 1 l.

(** Unsigned and signed 64-bit wrap-around: the value an [uint64], or an
    [int64], holds after an operation whose exact result is [z]. *)
Definition wrap_uint64 (z : Z) : Z := z mod 2 ^ 64.

Definition wrap_int64 (z : Z) : Z := (z + 2 ^ 63) mod 2 ^ 64 - 2 ^ 63.

(** [np.prod] of a shape: the entries are converted to [int64] and the
    product is accumulated in [int64], wrapping at each multiplication. *)
Definition np_prod (l : list Z) : Z :=
  foldr (λ x acc, wrap_int64 (x * acc)) 1 l.

Definition access_check : Type :=
  Tensor * ndarray bool * ndarray bool * ndarray Z * ndarray Z.

(** [ptrs.data] is an array of [uint64] and [tensor_ptr.ptr] an element of
    such an array, so [ptrs.data - tensor_ptr.ptr] is computed in [uint64]
    and wraps for an address below the base address.  [np.prod(shape)] is an
    [int64] and stays one when multiplied by the element size.  The two
    comparisons compare an element of the [uint64] array with an integer by
    value. *)
Definition check_out_of_bounds_access (ptrs : ndarray Z) : M access_check :=
  first_ptr ← lift (getitem (nd_data ptrs) 0);
  tensor_ptr ← get_tensor_ptr first_ptr;
  let offsets := nd_map (λ a, wrap_uint64 (a - ptr tensor_ptr)) ptrs in
  let max_valid_offset :=
    wrap_int64 (np_prod (shape tensor_ptr) * element_size tensor_ptr) in
  let valid_access_mask :=
    nd_map (λ o, bool_decide (0 ≤ o) && bool_decide (o < max_valid_offset))
           offsets in
  let invalid_access_mask := nd_map negb valid_access_mask in
  let corrected_offsets :=
    nd_zip_with (λ (v : bool) o, if v then o else 0)
                valid_access_mask offsets in
  mret (tensor_ptr, valid_access_mask, invalid_access_mask,
        corrected_offsets, offsets).

(** ** The instrumented builder calls

    Each wrapper records and then runs the wrapped builder function, which
    does not touch the recorder; shapes of results are taken as given. *)

Definition create_masked_load (ptrs : ndarray Z) (mask : ndarray bool)
    : M unit :=
  '(tensor_ptr, valid_access_mask, invalid_access_mask, corrected_offsets,
    original_offsets) ← check_out_of_bounds_access ptrs;
  add_record (Load (ptr tensor_ptr) (nd_shape ptrs) corrected_offsets
                   (nd_zip_with andb valid_access_mask mask)
                   invalid_access_mask original_offsets mask).

Definition create_masked_store (ptrs : ndarray Z) (mask : ndarray bool)
    : M unit :=
  '(tensor_ptr, valid_access_mask, invalid_access_mask, corrected_offsets,
    original_offsets) ← check_out_of_bounds_access ptrs;
  add_record (Store (ptr tensor_ptr) (nd_shape ptrs) corrected_offsets
                    (nd_zip_with andb valid_access_mask mask)
                    invalid_access_mask original_offsets mask).

Definition create_make_range (start stop : Z) : M unit :=
  add_record (MakeRange start stop).

Definition binary_op (op : string) (lhs_shape ret_shape : list Z) : M unit :=
  add_record (BinaryOp op lhs_shape ret_shape).

Definition create_dot (a_shape b_shape d_shape ret_shape : list Z) : M unit :=
  add_record (Dot (a_shape, b_shape) d_shape ret_shape).

Definition create_expand_dims (arg_shape : list Z) (axis : Z)
    (ret_shape : list Z) : M unit :=
  add_record (ExpandDims arg_shape axis ret_shape).

Definition reduce (op_name : string) (input_shape : list Z) (axis : option Z)
    (keep_dims : bool) (ret_shape : list Z) : M unit :=
  add_record (Reduce input_shape axis op_name keep_dims ret_shape).

(** ** [_grid_executor_call] *)

(** A call argument: one with a [data_ptr] attribute, or any other value. *)
Inductive kernel_arg : Type :=
| TensorArg (t : torch_tensor)
| ValueArg (v : Z).

(** The loop over [args.items()], lines 148-166: [tensors] is the local list
    built so far.  A failed [assert] raises before anything is recorded. *)
Fixpoint collect_tensors (constexprs : list string)
    (args : list (string * kernel_arg)) (tensors : list Tensor)
    : res (list Tensor) :=
  match args with
  | [] => Ok tensors
  | (name, arg) :: rest =>
      if bool_decide (name ∈ constexprs) then
        collect_tensors constexprs rest tensors
      else
        match arg with
        | TensorArg t =>
            res_bind (_check_storage_contiguous t) (λ ok,
              if ok then
                collect_tensors constexprs rest
                  (tensors ++ [mkTensor (data_ptr t) (t_dtype t) (t_stride t)
                                        (t_shape t) (t_element_size t)])
              else Raise AssertionError)
        | ValueArg _ => collect_tensors constexprs rest tensors
        end
  end.

(** The three nested loops over the grid, lines 176-181.  [fn x y z] is the
    interpreted kernel at cell [(x, y, z)], seen through what it does to the
    recorder. *)
Definition grid_loop (nx ny nz : Z) (fn : Z → Z → Z → M unit) : M unit :=
  for_ (range nx) (λ x,
    for_ (range ny) (λ y,
      for_ (range nz) (λ z,
        set_grid_idx x y z;;
        fn x y z))).

(** [grid] is the launch grid once resolved, a tuple of any length;
    [assert len(grid) <= 3] and the padding with ones are the five cases. *)
Definition _grid_executor_call (constexprs : list string) (grid : list Z)
    (fn : Z → Z → Z → M unit) (warmup : bool)
    (args : list (string * kernel_arg)) : M unit :=
  if warmup then mret ()
  else
    tensors ← lift (collect_tensors constexprs args []);
    '(nx, ny, nz) ← match grid with
                    | [] => mret (1, 1, 1)
                    | [a] => mret (a, 1, 1)
                    | [a; b] => mret (a, b, 1)
                    | [a; b; c] => mret (a, b, c)
                    | _ => raise AssertionError
                    end;
    set_grid_dim nx ny nz;;
    add_tensors tensors;;
    sort_tensor_handles;;
    grid_loop nx ny nz fn.

(** ** Notions used by the statements *)

(** Ascending order of base address. *)
Definition by_ptr : relation Tensor := key_le ptr.

(** Base addresses of the active launch's tensors, in list order. *)
Definition active_ptrs (st : RecordBuilder) : list Z :=
  match last (launches st) with
  | Some l => ptr <$> tensors l
  | None => []
  end.

(** A registry of three tensors, used to instantiate the statements. *)
Definition three_tensors : Launch :=
  mkLaunch (1, 1, 1)
    [mkTensor 1000 "f32" [1] [8] 4;
     mkTensor 2000 "f32" [1] [8] 4;
     mkTensor 3000 "f32" [1] [8] 4] [].

Definition three_tensors_st : RecordBuilder :=
  mkBuilder [three_tensors] None (0, 0, 0) (1, 1, 1).

(** Size in bytes of a registered tensor: the product of its shape times the
    element size, as an unbounded integer. *)
Definition extent (t : Tensor) : Z := prod (shape t) * element_size t.

(** The size the program computes, [np.prod(shape) * element_size] in
    [int64]; it is [extent] whenever that fits the signed 64-bit range. *)
Definition computed_extent (t : Tensor) : Z :=
  wrap_int64 (np_prod (shape t) * element_size t).

(** An address of the 64-bit address space. *)
Definition is_address (a : Z) : Prop := 0 ≤ a < 2 ^ 64.

(** The tensor lies inside the address space: its base address and its size
    are not negative and it ends at or before 2^64. *)
Definition in_address_space (t : Tensor) : Prop :=
  0 ≤ ptr t ∧ 0 ≤ extent t ∧ ptr t + extent t ≤ 2 ^ 64.

(** What the function returns once the first address and the owning tensor
    are known. *)
Definition access_masks (t : Tensor) (ptrs : ndarray Z) : access_check :=
  let offsets := nd_map (λ a, wrap_uint64 (a - ptr t)) ptrs in
  let valid :=
    nd_map (λ o, bool_decide (0 ≤ o) && bool_decide (o < computed_extent t))
           offsets in
  (t, valid, nd_map negb valid,
   nd_zip_with (λ (v : bool) o, if v then o else 0) valid offsets, offsets).

(** The tensor of the scenario: base 1000, shape (4, 4), four-byte elements. *)
Definition scenario_tensor (dt : string) (strides : list Z) : Tensor :=
  mkTensor 1000 dt strides [4; 4] 4.

(** A launch declared with no tensor registered. *)
Definition no_tensors_st : RecordBuilder := (set_grid_dim 1 1 1 fresh).2.

(** The owning tensor in the outcome of a call, or the exception raised. *)
Definition owner (r : res access_check * RecordBuilder) : res Tensor :=
  match r.1 with
  | Ok (t, _, _, _, _) => Ok t
  | Raise e => Raise e
  end.

(** Shape extent of dimension [index]. *)
Definition extent_of (t : torch_tensor) (index : nat) : Z :=
  default 0 (t_shape t !! index).

(** Stride of dimension [index]. *)
Definition stride_of (t : torch_tensor) (index : nat) : Z :=
  default 0 (t_stride t !! index).

(** The running product on reaching position [k] of the walk: 1 multiplied
    by the shape extents of the [k] dimensions walked before. *)
Definition running_product (t : torch_tensor) (k : nat) : Z :=
  prod (extent_of t <$> take k (stride_order t)).

(** The contiguity condition in the words of the specification: walking the
    dimensions in ascending order of stride, the first has stride 1 and each
    later one has the running product accumulated so far as its stride. *)
Definition strides_contiguous (t : torch_tensor) : Prop :=
  ∀ (k index : nat),
    stride_order t !! k = Some index →
    t_stride t !! index
    = Some (match k with 0%nat => 1 | S _ => running_product t k end).

(** Ascending order of stride, dimensions of equal stride by index. *)
Definition stride_before (t : torch_tensor) : relation nat :=
  key_then (stride_of t) lt.

(** A launch with [rs] appended to its records. *)
Definition launch_with (rs : list trace_record) (l : Launch) : Launch :=
  mkLaunch (grid l) (tensors l) (records l ++ rs).

(** The recorder with [rs] appended to the records of its active launch. *)
Definition with_records (rs : list trace_record) (st : RecordBuilder)
    : RecordBuilder :=
  mkBuilder (alter (launch_with rs) (pred (length (launches st))) (launches st))
            (sampling_grid_idx st) (grid_idx st) (grid_dim st).

(** The recorder with another active cell. *)
Definition with_grid_idx (idx : Z * Z * Z) (st : RecordBuilder)
    : RecordBuilder :=
  mkBuilder (launches st) (sampling_grid_idx st) idx (grid_dim st).

(** What handing [rs] to [add_record] one by one leaves behind. *)
Definition record_all (rs : list trace_record) (st : RecordBuilder)
    : RecordBuilder :=
  if sampled st then with_records rs st else st.

(** Flattening in the words of the specification, for an index of one, two
    or three components over the grid shape [(_, gridY, gridZ)]. *)
Definition flatten (dim : Z * Z * Z) (idx : list Z) : Z :=
  let '(_, gridY, gridZ) := dim in
  match idx with
  | [a] => a
  | [a; b] => a * gridY + b
  | [a; b; c] => a * gridY * gridZ + b * gridZ + c
  | _ => 0
  end.

(** The filter in the words of the specification: no sampling target is set,
    or the target and the active index flatten to the same number. *)
Definition accepts (st : RecordBuilder) : Prop :=
  sampling_grid_idx st = None
  ∨ ∃ idx, sampling_grid_idx st = Some idx
           ∧ flatten (grid_dim st) idx
             = flatten (grid_dim st) (tuple3 (grid_idx st)).

(** A sampling target, when set, has one, two or three components. *)
Definition sampling_wf (st : RecordBuilder) : Prop :=
  ∀ idx, sampling_grid_idx st = Some idx → (1 ≤ length idx ≤ 3)%nat.

(** [m] runs from [st] to [st'] without raising. *)
Definition runs (m : M unit) (st st' : RecordBuilder) : Prop :=
  m st = (Ok (), st').

(** The grid (2, 2, 1) declared on a fresh recorder. *)
Definition grid_2_2_1_st : RecordBuilder := (set_grid_dim 2 2 1 fresh).2.

(** An argument that goes through the contiguity assertion and fails it: it
    is not a constexpr, has a [data_ptr], and the check returns false. *)
Definition rejected (constexprs : list string) (a : string * kernel_arg)
    : Prop :=
  (a.1 ∉ constexprs)
  ∧ ∃ t, a.2 = TensorArg t ∧ _check_storage_contiguous t = Ok false.

(** Tensor arguments have as many strides as dimensions. *)
Definition arg_wf (a : string * kernel_arg) : Prop :=
  ∀ t, a.2 = TensorArg t → length (t_shape t) = length (t_stride t).

(** An argument list with a strided tensor between two contiguous ones. *)
Definition strided_args : list (string * kernel_arg) :=
  [("x_ptr", TensorArg (mkTorch 4096 "f32" [4; 1] [4; 4] 4));
   ("y_ptr", TensorArg (mkTorch 8192 "f32" [8; 2] [4; 4] 4));
   ("n", ValueArg 16);
   ("z_ptr", TensorArg (mkTorch 1024 "f32" [4; 1] [4; 4] 4))].

(** ** Notions used by the further properties *)

(** Componentwise strictly below. *)
Definition below (idx dim : Z * Z * Z) : Prop :=
  idx.1.1 < dim.1.1 ∧ idx.1.2 < dim.1.2 ∧ idx.2 < dim.2.

(** Row-major strides, in elements, of a dense tensor of the given shape:
    the stride of a dimension is the product of the extents after it. *)
Fixpoint row_major (shape : list Z) : list Z :=
  match shape with
  | [] => []
  | _ :: rest => prod rest :: row_major rest
  end.

(** The cells of a grid in the order of the three nested loops. *)
Definition cells (nx ny nz : Z) : list (Z * Z * Z) :=
  x ← range nx; y ← range ny; z ← range nz; [(x, y, z)].

(** What visiting cell [c] adds to the records of the launch when the kernel
    hands [recs x y z] to [add_record] in cell [(x, y, z)]: the [Grid]
    marker and those records if the sampling condition holds in that cell,
    nothing otherwise. *)
Definition cell_trace (recs : Z → Z → Z → list trace_record)
    (st : RecordBuilder) (c : Z * Z * Z) : list trace_record :=
  if sampled (with_grid_idx c st) then Grid c :: recs c.1.1 c.1.2 c.2 else [].

(** The recorder after cell [c] was visited. *)
Definition visit (recs : Z → Z → Z → list trace_record)
    (st : RecordBuilder) (c : Z * Z * Z) : RecordBuilder :=
  record_all (Grid c :: recs c.1.1 c.1.2 c.2) (with_grid_idx c st).

(** The descriptor the executor registers for a tensor argument,
    [Tensor(ret.handle.data[0], ret.dtype, arg.stride(), arg.shape,
    arg.element_size())]. *)
Definition descriptor (t : torch_tensor) : Tensor :=
  mkTensor (data_ptr t) (t_dtype t) (t_stride t) (t_shape t)
           (t_element_size t).

(** The arguments that reach the contiguity assertion, in argument order:
    those with a [data_ptr] whose name is not a constexpr. *)
Fixpoint checked_tensors (constexprs : list string)
    (args : list (string * kernel_arg)) : list torch_tensor :=
  match args with
  | [] => []
  | (name, arg) :: rest =>
      if bool_decide (name ∈ constexprs) then checked_tensors constexprs rest
      else
        match arg with
        | TensorArg t => t :: checked_tensors constexprs rest
        | ValueArg _ => checked_tensors constexprs rest
        end
  end.

(** A grid of up to three components padded with ones. *)
Definition padded (grid : list Z) : option (Z * Z * Z) :=
  match grid with
  | [] => Some (1, 1, 1)
  | [a] => Some (a, 1, 1)
  | [a; b] => Some (a, b, 1)
  | [a; b; c] => Some (a, b, c)
  | _ => None
  end.

(** A call made on the recorder by the executor, the interpreted kernel or
    a client: the methods of [RecordBuilder] and the instrumented load and
    store. *)
Inductive call : Type :=
| CallReset
| CallSetSamplingGridIdx (idx : list Z)
| CallSetGridDim (nx ny nz : Z)
| CallSetGridIdx (x y z : Z)
| CallAddTensors (ts : list Tensor)
| CallSortTensorHandles
| CallGetTensorPtr (p : Z)
| CallAddRecord (r : trace_record)
| CallMaskedLoad (ptrs : ndarray Z) (mask : ndarray bool)
| CallMaskedStore (ptrs : ndarray Z) (mask : ndarray bool).

Definition perform (c : call) : M unit :=
  match c with
  | CallReset => reset
  | CallSetSamplingGridIdx idx => set_sampling_grid_idx idx
  | CallSetGridDim nx ny nz => set_grid_dim nx ny nz
  | CallSetGridIdx x y z => set_grid_idx x y z
  | CallAddTensors ts => add_tensors ts
  | CallSortTensorHandles => sort_tensor_handles
  | CallGetTensorPtr p => get_tensor_ptr p;; mret ()
  | CallAddRecord r => add_record r
  | CallMaskedLoad ptrs mask => create_masked_load ptrs mask
  | CallMaskedStore ptrs mask => create_masked_store ptrs mask
  end.

(** The recorder after a sequence of calls, each of which returns or raises;
    the caller carries on with the recorder as the call left it. *)
Definition perform_all (cs : list call) (st : RecordBuilder) : RecordBuilder :=
  foldl (λ s c, (perform c s).2) st cs.

(** Launch [l'] is launch [l] grown: the same grid, the records of [l]
    followed by more, and at least the tensors of [l]. *)
Definition grown (l l' : Launch) : Prop :=
  grid l' = grid l
  ∧ records l `prefix_of` records l'
  ∧ tensors l ⊆+ tensors l'.

(** The grid of the active launch is the grid the recorder flattens with. *)
Definition grid_agrees (st : RecordBuilder) : Prop :=
  ∀ l, last (launches st) = Some l → grid l = grid_dim st.

(** Every [Grid] marker lies below the bounds of the grid of its launch. *)
Definition markers_bounded (st : RecordBuilder) : Prop :=
  ∀ l idx, l ∈ launches st → Grid idx ∈ records l → below idx (grid l).

(** What one call does to the launches and to the grid shape. *)
Definition call_effect (c : call) (st st' : RecordBuilder) : Prop :=
  (c = CallReset ∧ st' = fresh)
  ∨ (∃ nx ny nz,
       launches st' = launches st ++ [mkLaunch (nx, ny, nz) [] []]
       ∧ grid_dim st' = (nx, ny, nz))
  ∨ (launches st' = launches st ∧ grid_dim st' = grid_dim st)
  ∨ (∃ pre a ts' rs,
       launches st = pre ++ [a]
       ∧ launches st' = pre ++ [mkLaunch (grid a) ts' (records a ++ rs)]
       ∧ tensors a ⊆+ ts'
       ∧ grid_dim st' = grid_dim st
       ∧ ∀ idx, Grid idx ∈ rs →
           c = CallAddRecord (Grid idx) ∨ below idx (grid_dim st)).

(** The wrappers of [interpreter.py] with the builder function they wrap.
    [fn] may itself use the recorder (a wrapper can wrap a wrapper); its
    arguments that the wrapper only passes on are gathered in [rest], and
    arrays appear where the wrapper reads [.data.shape]. *)
Definition _create_masked_load {O R}
    (fn : ndarray Z → ndarray bool → O → M R)
    (ptrs : ndarray Z) (mask : ndarray bool) (rest : O) : M R :=
  '(tensor_ptr, valid_access_mask, invalid_access_mask, corrected_offsets,
    original_offsets) ← check_out_of_bounds_access ptrs;
  add_record (Load (ptr tensor_ptr) (nd_shape ptrs) corrected_offsets
                   (nd_zip_with andb valid_access_mask mask)
                   invalid_access_mask original_offsets mask);;
  fn ptrs mask rest.

Definition _create_masked_store {V O R}
    (fn : ndarray Z → V → ndarray bool → O → M R)
    (ptrs : ndarray Z) (value : V) (mask : ndarray bool) (rest : O) : M R :=
  '(tensor_ptr, valid_access_mask, invalid_access_mask, corrected_offsets,
    original_offsets) ← check_out_of_bounds_access ptrs;
  add_record (Store (ptr tensor_ptr) (nd_shape ptrs) corrected_offsets
                    (nd_zip_with andb valid_access_mask mask)
                    invalid_access_mask original_offsets mask);;
  fn ptrs value mask rest.

Definition _create_make_range {R} (fn : Z → Z → M R) (start stop : Z) : M R :=
  add_record (MakeRange start stop);;
  fn start stop.

Definition _create_binary_op {V W}
    (fn : ndarray V → ndarray V → string → M (ndarray W))
    (lhs rhs : ndarray V) (op : string) : M (ndarray W) :=
  ret ← fn lhs rhs op;
  add_record (BinaryOp op (nd_shape lhs) (nd_shape ret));;
  mret ret.

Definition _create_dot {V O}
    (fn : ndarray V → ndarray V → ndarray V → O → M (ndarray V))
    (a b d : ndarray V) (rest : O) : M (ndarray V) :=
  ret ← fn a b d rest;
  add_record (Dot (nd_shape a, nd_shape b) (nd_shape d) (nd_shape ret));;
  mret ret.

Definition _create_expand_dims {V}
    (fn : ndarray V → Z → M (ndarray V))
    (arg : ndarray V) (axis : Z) : M (ndarray V) :=
  ret ← fn arg axis;
  add_record (ExpandDims (nd_shape arg) axis (nd_shape ret));;
  mret ret.

(** [keep_dims] is the entry of that name in the keyword arguments, if
    any; the other keyword arguments are only passed on. *)
Definition _create_reduce {V}
    (fn : ndarray V → option Z → option bool → M (ndarray V))
    (op_name : string)
    (input : ndarray V) (axis : option Z) (keep_dims : option bool)
    : M (ndarray V) :=
  ret ← fn input axis keep_dims;
  add_record (Reduce (nd_shape input) axis op_name (default false keep_dims)
                     (nd_shape ret));;
  mret ret.

(** The loop of [_check_storage_contiguous] over the (stride, extent) pairs
    of the dimensions in walking order. *)
Fixpoint walk_dims (i : nat) (shape_prod : Z) (dims : list (Z * Z)) : bool :=
  match dims with
  | [] => true
  | (stride, shape) :: rest =>
      if bool_decide (i = 0%nat) && bool_decide (stride ≠ 1) then false
      else if bool_decide (i ≠ 0%nat) && bool_decide (stride ≠ shape_prod)
      then false
      else walk_dims (S i) (shape_prod * shape) rest
  end.

(** The (stride, extent) pair of dimension [index]. *)
Definition dim_of (t : torch_tensor) (index : nat) : Z * Z :=
  (stride_of t index, extent_of t index).

(** * Properties *)

(** ** Running the recorder monad *)

Ltac unfold_M :=
  unfold mbind, mret, M_bind, M_ret, get, put, lift, raise.

Lemma bind_ok {A B} (m : M A) (k : A → M B) st a st' :
  m st = (Ok a, st') → (m ≫= k) st = k a st'.
Proof. unfold_M. by intros ->. Qed.

Lemma bind_raise {A B} (m : M A) (k : A → M B) st e st' :
  m st = (Raise e, st') → (m ≫= k) st = (Raise e, st').
Proof. unfold_M. by intros ->. Qed.

Lemma last_active ls (l : Launch) : last (ls ++ [l]) = Some l.
Proof. apply last_snoc. Qed.

Lemma last_split (ls : list Launch) l :
  last ls = Some l → ∃ ls', ls = ls' ++ [l].
Proof.
  destruct ls as [|l0 ls] using rev_ind; [done|].
  rewrite last_snoc. intros [= ->]. by exists ls.
Qed.

Lemma insert_active ls (l l' : Launch) :
  <[pred (length (ls ++ [l])) := l']> (ls ++ [l]) = ls ++ [l'].
Proof.
  rewrite length_app, Nat.add_1_r. simpl.
  rewrite insert_app_r_alt by lia. by rewrite Nat.sub_diag.
Qed.

Lemma active_launch_run st ls l :
  launches st = ls ++ [l] → active_launch st = (Ok l, st).
Proof. unfold active_launch. intros ->. by rewrite last_active. Qed.

Lemma set_active_launch_run st ls l l' :
  launches st = ls ++ [l] →
  set_active_launch l' st
  = (Ok (), mkBuilder (ls ++ [l']) (sampling_grid_idx st) (grid_idx st)
                      (grid_dim st)).
Proof. unfold set_active_launch. intros ->. by rewrite insert_active. Qed.

(** ** [sorted] returns a sorted permutation, and keeps the order of equal
    keys *)
Section py_sorted_facts.
Context {A : Type} (key : A → Z).

Lemma insert_by_perm x l : insert_by key x l ≡ₚ x :: l.
Proof.
  induction l as [|y l IH]; simpl; [done|].
  case_bool_decide; [done|]. by rewrite IH, Permutation_swap.
Qed.

Lemma sorted_perm l : sorted key l ≡ₚ l.
Proof.
  induction l as [|x l IH]; simpl; [done|].
  by rewrite insert_by_perm, IH.
Qed.

Lemma insert_by_HdRel (R : relation A) a x l :
  R a x → HdRel R a l → HdRel R a (insert_by key x l).
Proof.
  intros Hax Hal. destruct l as [|y l]; simpl; [by constructor|].
  case_bool_decide; constructor; [done|]. by inversion Hal.
Qed.

Lemma insert_by_Sorted x l :
  Sorted (key_le key) l → Sorted (key_le key) (insert_by key x l).
Proof.
  induction 1 as [|y l Hl IH Hy]; simpl; [by repeat constructor|].
  case_bool_decide as Hxy.
  - repeat constructor; done.
  - constructor; [done|].
    apply insert_by_HdRel; [unfold key_le; lia|done].
Qed.

Lemma sorted_Sorted l : Sorted (key_le key) (sorted key l).
Proof.
  induction l as [|x l IH]; simpl; [constructor|].
  by apply insert_by_Sorted.
Qed.

(** Stability, for any relation [before] that holds from the inserted
    element to all those already there: the result is sorted by key first
    and by [before] among equal keys. *)
Lemma insert_by_stable (before : relation A) x l :
  Forall (before x) l →
  Sorted (key_then key before) l →
  Sorted (key_then key before) (insert_by key x l).
Proof.
  intros Hx Hl. induction Hl as [|y l Hl IH Hy]; simpl;
    [by repeat constructor|].
  inversion_clear Hx as [|?? Hxy Hxl].
  case_bool_decide as Hk.
  - constructor; [by constructor|]. constructor.
    unfold key_then. destruct (decide (key x = key y)); [by right|left; lia].
  - constructor; [by apply IH|].
    apply insert_by_HdRel; [unfold key_then; left; lia|done].
Qed.

Lemma sorted_stable (before : relation A) l :
  StronglySorted before l → Sorted (key_then key before) (sorted key l).
Proof.
  induction 1 as [|x l Hl IH Hx]; simpl; [constructor|].
  apply insert_by_stable; [|done].
  by rewrite sorted_perm.
Qed.

Lemma sorted_keys_unique l1 l2 :
  l1 ≡ₚ l2 → key <$> sorted key l1 = key <$> sorted key l2.
Proof.
  intros Hp. apply (Sorted_unique Z.le).
  - apply (Sorted_fmap key (key_le key) Z.le); [done|apply sorted_Sorted].
  - apply (Sorted_fmap key (key_le key) Z.le); [done|apply sorted_Sorted].
  - by rewrite !sorted_perm, Hp.
Qed.
End py_sorted_facts.

(** ** The tensor registry *)

Lemma add_tensors_run st ls l ts :
  launches st = ls ++ [l] →
  add_tensors ts st
  = (Ok (), mkBuilder (ls ++ [mkLaunch (grid l) (tensors l ++ ts) (records l)])
                      (sampling_grid_idx st) (grid_idx st) (grid_dim st)).
Proof.
  intros Hl. unfold add_tensors.
  rewrite (bind_ok _ _ _ _ _ (active_launch_run _ _ _ Hl)).
  by apply (set_active_launch_run _ _ l).
Qed.

Lemma sort_tensor_handles_run st ls l :
  launches st = ls ++ [l] →
  sort_tensor_handles st
  = (Ok (), mkBuilder
              (ls ++ [mkLaunch (grid l) (sorted ptr (tensors l)) (records l)])
              (sampling_grid_idx st) (grid_idx st) (grid_dim st)).
Proof.
  intros Hl. unfold sort_tensor_handles.
  rewrite (bind_ok _ _ _ _ _ (active_launch_run _ _ _ Hl)).
  by apply (set_active_launch_run _ _ l).
Qed.

(** C9: whatever tensors are registered to the active launch, and in whatever
    order, [sort_tensor_handles] leaves the launch with a permutation of them
    that ascends in [ptr]; the rest of the recorder is untouched, and the
    sequence of base addresses does not depend on the registration order. *)
Theorem sort_tensor_handles_sorted_perm (st : RecordBuilder)
    (ls : list Launch) (l : Launch) (ts : list Tensor) :
  launches st = ls ++ [l] →
  ∃ ts',
    (add_tensors ts;; sort_tensor_handles) st
    = (Ok (), mkBuilder (ls ++ [mkLaunch (grid l) ts' (records l)])
                        (sampling_grid_idx st) (grid_idx st) (grid_dim st))
    ∧ ts' ≡ₚ tensors l ++ ts
    ∧ Sorted by_ptr ts'
    ∧ ∀ ts2, ts2 ≡ₚ ts →
        active_ptrs ((add_tensors ts2;; sort_tensor_handles) st).2
        = ptr <$> ts'.
Proof.
  intros Hl. exists (sorted ptr (tensors l ++ ts)).
  assert (∀ ts0, (add_tensors ts0;; sort_tensor_handles) st
    = (Ok (), mkBuilder
        (ls ++ [mkLaunch (grid l) (sorted ptr (tensors l ++ ts0)) (records l)])
        (sampling_grid_idx st) (grid_idx st) (grid_dim st))) as Hrun.
  { intros ts0.
    rewrite (bind_ok _ _ _ _ _ (add_tensors_run _ _ _ ts0 Hl)).
    by rewrite (sort_tensor_handles_run _ ls
                  (mkLaunch (grid l) (tensors l ++ ts0) (records l))). }
  split_and!.
  - apply Hrun.
  - apply sorted_perm.
  - apply sorted_Sorted.
  - intros ts2 Hp. rewrite Hrun. unfold active_ptrs. simpl.
    rewrite last_active. simpl.
    apply sorted_keys_unique. by rewrite Hp.
Qed.

Lemma sort_tensor_handles_sorted_perm_witness :
  ∃ ts',
    (add_tensors [mkTensor 3000 "f32" [1] [8] 4; mkTensor 1000 "f32" [1] [8] 4];;
     sort_tensor_handles)
      (mkBuilder [mkLaunch (1, 1, 1) [mkTensor 2000 "f32" [1] [8] 4] []]
                 None (0, 0, 0) (1, 1, 1))
    = (Ok (), mkBuilder [mkLaunch (1, 1, 1) ts' []] None (0, 0, 0) (1, 1, 1))
    ∧ ptr <$> ts' = [1000; 2000; 3000].
Proof.
  destruct (sort_tensor_handles_sorted_perm
    (mkBuilder [mkLaunch (1, 1, 1) [mkTensor 2000 "f32" [1] [8] 4] []]
               None (0, 0, 0) (1, 1, 1))
    [] (mkLaunch (1, 1, 1) [mkTensor 2000 "f32" [1] [8] 4] [])
    [mkTensor 3000 "f32" [1] [8] 4; mkTensor 1000 "f32" [1] [8] 4]
    eq_refl) as (ts' & Hrun & _ & _ & Hptrs).
  exists ts'. split; [exact Hrun|].
  rewrite <- (Hptrs _ (reflexivity _)). reflexivity.
Defined.

(** ** [get_tensor_ptr] *)

(** The loop stops at the first tensor whose base address exceeds [p]: it
    splits the list into the prefix it walked and the rest, and holds the
    index of the last tensor of the prefix. *)
Lemma floor_index_split p ts : ∀ i r,
  ∃ pre post,
    ts = pre ++ post
    ∧ Forall (λ t, ptr t ≤ p) pre
    ∧ match post with [] => True | t :: _ => p < ptr t end
    ∧ floor_index p i r ts
      = match pre with [] => r | _ :: _ => (i + length pre - 1)%nat end.
Proof.
  induction ts as [|t ts IH]; intros i r; simpl.
  - by exists [], [].
  - case_bool_decide as Hlt.
    + by exists [], (t :: ts).
    + destruct (IH (S i) i) as (pre & post & -> & Hpre & Hpost & Hidx).
      exists (t :: pre), post. split_and!; [done| |done|].
      * constructor; [lia|done].
      * rewrite Hidx. destruct pre; simpl; lia.
Qed.

Lemma get_tensor_ptr_run st ls l p :
  launches st = ls ++ [l] →
  get_tensor_ptr p st
  = (getitem (tensors l) (floor_index p 0 0 (tensors l)), st).
Proof.
  intros Hl. unfold get_tensor_ptr.
  by rewrite (bind_ok _ _ _ _ _ (active_launch_run _ _ _ Hl)).
Qed.

#[local] Instance by_ptr_trans : Transitive by_ptr.
Proof. intros a b c. unfold by_ptr, key_le. lia. Qed.

(** C2: on a non-empty registry ascending in [ptr], [get_tensor_ptr] returns
    a registered tensor and leaves the recorder alone.  When some base
    address is at most [addr], the tensor returned has the greatest such
    base address; when a tensor's base address is [addr] itself, so is that
    of the tensor returned, which is that very tensor when no other shares
    its base address; and when [addr] is below every base address the first
    tensor of the list is returned, not an error. *)
Theorem get_tensor_ptr_floor (st : RecordBuilder) (ls : list Launch)
    (l : Launch) (addr : Z) :
  launches st = ls ++ [l] →
  tensors l ≠ [] →
  Sorted by_ptr (tensors l) →
  ∃ t,
    get_tensor_ptr addr st = (Ok t, st)
    ∧ t ∈ tensors l
    ∧ ((∃ t', t' ∈ tensors l ∧ ptr t' ≤ addr) →
       ptr t ≤ addr
       ∧ ∀ t', t' ∈ tensors l → ptr t' ≤ addr → ptr t' ≤ ptr t)
    ∧ (∀ t', t' ∈ tensors l → ptr t' = addr →
       ptr t = addr
       ∧ ((∀ t'', t'' ∈ tensors l → ptr t'' = addr → t'' = t') → t = t'))
    ∧ ((∀ t', t' ∈ tensors l → addr < ptr t') → head (tensors l) = Some t).
Proof.
  intros Hl Hne Hsorted. rewrite (get_tensor_ptr_run _ _ _ _ Hl).
  destruct (floor_index_split addr (tensors l) 0 0)
    as (pre & post & Hts & Hpre & Hpost & Hidx).
  rewrite Hidx. clear Hidx.
  apply (Sorted_StronglySorted by_ptr) in Hsorted.
  assert (Forall (λ t, addr < ptr t) post) as Hpost_all.
  { rewrite Hts in Hsorted. apply StronglySorted_app_1_r in Hsorted.
    destruct post as [|t0 post]; [done|].
    apply StronglySorted_cons in Hsorted as [H0 _].
    constructor; [done|]. eapply Forall_impl; [exact H0|].
    intros t'. unfold by_ptr, key_le. lia. }
  destruct pre as [|t0 pre0] using rev_ind.
  - (* [addr] is below every base address *)
    simpl in Hts. destruct (tensors l) as [|t ts] eqn:Hl0; [done|].
    subst post. exists t. unfold getitem. simpl.
    split_and!; [done|left| | |done].
    + intros (t' & Hin & Hle). rewrite Forall_forall in Hpost_all.
      specialize (Hpost_all _ Hin). lia.
    + intros t' Hin Heq. rewrite Forall_forall in Hpost_all.
      specialize (Hpost_all _ Hin). lia.
  - (* the walked prefix ends with [t0] *)
    clear IHpre0. exists t0.
    assert (getitem (tensors l)
              match pre0 ++ [t0] with
              | [] => 0%nat
              | _ :: _ => (0 + length (pre0 ++ [t0]) - 1)%nat
              end = Ok t0) as ->.
    { replace (match pre0 ++ [t0] with
               | [] => 0%nat
               | _ :: _ => (0 + length (pre0 ++ [t0]) - 1)%nat
               end) with (length pre0)
        by (destruct pre0; simpl; rewrite ?length_app; simpl; lia).
      unfold getitem. rewrite Hts, <- (assoc_L (++)). simpl.
      by rewrite list_lookup_middle. }
    apply Forall_app in Hpre as [Hpre0 Ht0].
    apply Forall_inv in Ht0. simpl in Ht0.
    assert (∀ t', t' ∈ tensors l → ptr t' ≤ addr → ptr t' ≤ ptr t0) as Hmax.
    { intros t' Hin Hle. rewrite Hts in Hin, Hsorted.
      apply elem_of_app in Hin as [Hin|Hin].
      - apply StronglySorted_app_1_l in Hsorted.
        apply elem_of_app in Hin as [Hin|Hin].
        + apply (StronglySorted_app_1_elem_of by_ptr pre0 [t0] t' t0 Hsorted Hin).
          by left.
        + apply list_elem_of_singleton in Hin. by subst.
      - rewrite Forall_forall in Hpost_all. specialize (Hpost_all _ Hin). lia. }
    assert (t0 ∈ tensors l) as Hin0.
    { rewrite Hts, !elem_of_app. left. right. constructor. }
    split_and!.
    + done.
    + done.
    + intros _. split; [lia|exact Hmax].
    + intros t' Hin Heq. specialize (Hmax _ Hin ltac:(lia)).
      split; [lia|]. intros Huniq. apply Huniq; [done|lia].
    + intros Hall. specialize (Hall _ Hin0). lia.
Qed.

Lemma get_tensor_ptr_floor_witness :
  ∃ t, (get_tensor_ptr 2500 three_tensors_st).1 = Ok t ∧ ptr t ≤ 2500.
Proof.
  destruct (get_tensor_ptr_floor three_tensors_st [] three_tensors 2500
              eq_refl) as (t & Hrun & _ & Hfloor & _).
  - discriminate.
  - repeat constructor; unfold by_ptr, key_le; simpl; lia.
  - exists t. split; [by rewrite Hrun|].
    apply Hfloor. exists (mkTensor 1000 "f32" [1] [8] 4).
    split; [constructor|simpl; lia].
Defined.

(** ** [check_out_of_bounds_access] *)

Lemma floor_index_lt p ts :
  ts ≠ [] → (floor_index p 0 0 ts < length ts)%nat.
Proof.
  intros Hne.
  destruct (floor_index_split p ts 0 0) as (pre & post & -> & _ & _ & ->).
  rewrite length_app. destruct pre; simpl in *; [|lia].
  destruct post; simpl; [done|lia].
Qed.

Lemma resolve_nonempty st ls l p :
  launches st = ls ++ [l] → tensors l ≠ [] →
  ∃ t, get_tensor_ptr p st = (Ok t, st) ∧ t ∈ tensors l.
Proof.
  intros Hl Hne. rewrite (get_tensor_ptr_run _ _ _ _ Hl). unfold getitem.
  destruct (lookup_lt_is_Some_2 (tensors l) _ (floor_index_lt p _ Hne))
    as [t Ht].
  rewrite Ht. exists t. split; [done|]. by eapply list_elem_of_lookup_2.
Qed.

Lemma check_out_of_bounds_access_run st ptrs a :
  nd_data ptrs !! 0%nat = Some a →
  check_out_of_bounds_access ptrs st
  = match get_tensor_ptr a st with
    | (Ok t, st') => (Ok (access_masks t ptrs), st')
    | (Raise e, st') => (Raise e, st')
    end.
Proof.
  intros Ha. unfold check_out_of_bounds_access, getitem. rewrite Ha.
  unfold_M. by destruct (get_tensor_ptr a st) as [[t|e] st'].
Qed.

Lemma check_out_of_bounds_access_empty st ptrs :
  nd_data ptrs = [] →
  check_out_of_bounds_access ptrs st = (Raise IndexError, st).
Proof.
  intros He. unfold check_out_of_bounds_access, getitem. by rewrite He.
Qed.

(** *** 64-bit arithmetic *)

Ltac wrap_arith :=
  unfold wrap_uint64, wrap_int64 in *;
  change (2 ^ 64) with 18446744073709551616 in *;
  change (2 ^ 63) with 9223372036854775808 in *;
  Z.div_mod_to_equations; lia.

Lemma wrap_uint64_range z : 0 ≤ wrap_uint64 z < 2 ^ 64.
Proof. wrap_arith. Qed.

Lemma wrap_uint64_id z : 0 ≤ z < 2 ^ 64 → wrap_uint64 z = z.
Proof. intros. wrap_arith. Qed.

Lemma wrap_uint64_below z : - 2 ^ 64 ≤ z < 0 → wrap_uint64 z = z + 2 ^ 64.
Proof. intros. wrap_arith. Qed.

Lemma wrap_int64_range z : - 2 ^ 63 ≤ wrap_int64 z < 2 ^ 63.
Proof. wrap_arith. Qed.

Lemma wrap_int64_id z : - 2 ^ 63 ≤ z < 2 ^ 63 → wrap_int64 z = z.
Proof. intros. wrap_arith. Qed.

Lemma wrap_int64_le z : 0 ≤ z → wrap_int64 z ≤ z.
Proof. intros. wrap_arith. Qed.

Lemma wrap_int64_mod z : wrap_int64 z mod 2 ^ 64 = z mod 2 ^ 64.
Proof.
  unfold wrap_int64. rewrite Zminus_mod_idemp_l. f_equal. lia.
Qed.

Lemma wrap_int64_congr a b :
  a mod 2 ^ 64 = b mod 2 ^ 64 → wrap_int64 a = wrap_int64 b.
Proof.
  intros Hab. unfold wrap_int64.
  by rewrite (Zplus_mod a), Hab, <- (Zplus_mod b).
Qed.

(** Wrapping at every multiplication and wrapping once at the end give the
    same 64-bit number. *)
Lemma np_prod_mod l : np_prod l mod 2 ^ 64 = prod l mod 2 ^ 64.
Proof.
  induction l as [|x l IH]; simpl; [done|].
  rewrite wrap_int64_mod. unfold prod in *. simpl.
  by rewrite <- Zmult_mod_idemp_r, IH, Zmult_mod_idemp_r.
Qed.

Lemma computed_extent_wrap t : computed_extent t = wrap_int64 (extent t).
Proof.
  unfold computed_extent, extent. apply wrap_int64_congr.
  by rewrite <- Zmult_mod_idemp_l, np_prod_mod, Zmult_mod_idemp_l.
Qed.

Lemma computed_extent_fits t :
  - 2 ^ 63 ≤ extent t < 2 ^ 63 → computed_extent t = extent t.
Proof. intros. rewrite computed_extent_wrap. by apply wrap_int64_id. Qed.

Lemma computed_extent_le t : 0 ≤ extent t → computed_extent t ≤ extent t.
Proof. intros. rewrite computed_extent_wrap. by apply wrap_int64_le. Qed.

(** For an address and a tensor of the address space, an offset the program
    finds below the computed size is the true distance from the base
    address, and the address lies inside the tensor. *)
Lemma offset_inside a t :
  is_address a → in_address_space t →
  0 ≤ wrap_uint64 (a - ptr t) < computed_extent t →
  ptr t ≤ a < ptr t + extent t ∧ wrap_uint64 (a - ptr t) = a - ptr t.
Proof.
  intros Ha (Hp & He & Hend) Hoff.
  pose proof (computed_extent_le t He) as Hle.
  unfold is_address in Ha.
  destruct (decide (ptr t ≤ a)) as [Hge|Hlt].
  - rewrite wrap_uint64_id in Hoff |- * by lia. lia.
  - rewrite wrap_uint64_below in Hoff by lia. lia.
Qed.


Lemma access_masks_lookup t ptrs (i : nat) a :
  nd_data ptrs !! i = Some a →
  let '(_, valid, invalid, corrected, raw) := access_masks t ptrs in
  let offset := wrap_uint64 (a - ptr t) in
  let inside := bool_decide (0 ≤ offset < computed_extent t) in
  nd_data raw !! i = Some offset
  ∧ nd_data valid !! i = Some inside
  ∧ nd_data invalid !! i = Some (negb inside)
  ∧ nd_data corrected !! i = Some (if inside then offset else 0).
Proof.
  intros Ha. unfold access_masks. simpl.
  rewrite lookup_zip_with, !list_lookup_fmap, Ha. simpl.
  assert (bool_decide (0 ≤ wrap_uint64 (a - ptr t))
          && bool_decide (wrap_uint64 (a - ptr t) < computed_extent t)
          = bool_decide (0 ≤ wrap_uint64 (a - ptr t) < computed_extent t))
    as ->.
  { repeat case_bool_decide; simpl; try done; lia. }
  done.
Qed.


(** A size that does not fit [int64]: shape (2^31, 2^31) with four-byte
    elements has 2^64 bytes, the program computes the size 0 and marks every
    address invalid, also the base address. *)
Lemma check_out_of_bounds_access_size_wraps :
  let t := mkTensor 1000 "f32" [2147483648; 1] [2147483648; 2147483648] 4 in
  let st := mkBuilder [mkLaunch (1, 1, 1) [t] []] None (0, 0, 0) (1, 1, 1) in
  check_out_of_bounds_access (mkArray [2] [1000; 1004]) st
  = (Ok (t, mkArray [2] [false; false], mkArray [2] [true; true],
         mkArray [2] [0; 0], mkArray [2] [0; 4]), st)
  ∧ extent t = 2 ^ 64
  ∧ computed_extent t = 0.
Proof. split_and!; reflexivity. Qed.



(** With an empty registry a non-empty batch raises too: the lookup
    [tensors[ret_idx]] of [get_tensor_ptr] has nothing to return. *)
Lemma check_out_of_bounds_access_empty_registry :
  nd_data (mkArray [1] [5]) ≠ []
  ∧ check_out_of_bounds_access (mkArray [1] [5]) no_tensors_st
    = (Raise IndexError, no_tensors_st).
Proof. split; [discriminate|reflexivity]. Qed.

(** C7, amended: with an active launch whose registry is not empty, the
    function returns its five results for every non-empty batch, whatever the
    addresses, and leaves the recorder unchanged; on an empty batch it raises
    [IndexError].  So under that condition it fails exactly on the empty
    batch. *)
Theorem check_out_of_bounds_access_total (st : RecordBuilder) ls l
    (ptrs : ndarray Z) :
  launches st = ls ++ [l] →
  tensors l ≠ [] →
  (nd_data ptrs ≠ [] →
   ∃ t valid invalid corrected raw,
     check_out_of_bounds_access ptrs st
     = (Ok (t, valid, invalid, corrected, raw), st))
  ∧ (nd_data ptrs = [] →
     check_out_of_bounds_access ptrs st = (Raise IndexError, st))
  ∧ (is_ok (check_out_of_bounds_access ptrs st).1 ↔ nd_data ptrs ≠ []).
Proof.
  intros Hl Hne.
  assert (nd_data ptrs ≠ [] →
   ∃ t valid invalid corrected raw,
     check_out_of_bounds_access ptrs st
     = (Ok (t, valid, invalid, corrected, raw), st)) as Hok.
  { intros Hbatch.
    assert (∃ a, nd_data ptrs !! 0%nat = Some a) as [a H0].
    { destruct (nd_data ptrs) as [|a rest]; [done|by exists a]. }
    destruct (resolve_nonempty st ls l a Hl Hne) as (t & Hres & _).
    rewrite (check_out_of_bounds_access_run _ _ _ H0), Hres.
    unfold access_masks. by eexists _, _, _, _, _. }
  split_and!; [done|apply check_out_of_bounds_access_empty|].
  split.
  - intros Hrun Hempty.
    by rewrite (check_out_of_bounds_access_empty _ _ Hempty) in Hrun.
  - intros Hbatch. destruct (Hok Hbatch) as (?&?&?&?&?&->). done.
Qed.

Lemma check_out_of_bounds_access_total_witness :
  is_ok (check_out_of_bounds_access (mkArray [3] [0; 2000; 99999])
           three_tensors_st).1.
Proof.
  apply (check_out_of_bounds_access_total three_tensors_st [] three_tensors
           (mkArray [3] [0; 2000; 99999]) eq_refl); discriminate.
Defined.

Lemma get_tensor_ptr_registry st1 st2 p :
  tensors <$> last (launches st1) = tensors <$> last (launches st2) →
  (get_tensor_ptr p st1).1 = (get_tensor_ptr p st2).1.
Proof.
  unfold get_tensor_ptr, active_launch. unfold_M.
  destruct (last (launches st1)), (last (launches st2)); simpl;
    intros [=]; [|done].
  by match goal with H : tensors _ = tensors _ |- _ => rewrite H end.
Qed.

(** C8: the owning tensor is a function of the first address of the flattened
    batch and of the registry alone.  Two batches with the same first
    address, checked against recorders whose active launches hold the same
    tensor list, get the same owner (or the same exception); it is what
    [get_tensor_ptr] returns for that first address. *)
Theorem owner_from_first_address (st1 st2 : RecordBuilder)
    (ptrs1 ptrs2 : ndarray Z) (a : Z) :
  nd_data ptrs1 !! 0%nat = Some a →
  nd_data ptrs2 !! 0%nat = Some a →
  tensors <$> last (launches st1) = tensors <$> last (launches st2) →
  owner (check_out_of_bounds_access ptrs1 st1)
  = owner (check_out_of_bounds_access ptrs2 st2)
  ∧ owner (check_out_of_bounds_access ptrs1 st1) = (get_tensor_ptr a st1).1.
Proof.
  intros H1 H2 Hreg.
  assert (∀ st ptrs, nd_data ptrs !! 0%nat = Some a →
    owner (check_out_of_bounds_access ptrs st) = (get_tensor_ptr a st).1)
    as Howner.
  { intros st ptrs H0. rewrite (check_out_of_bounds_access_run _ _ _ H0).
    unfold owner. by destruct (get_tensor_ptr a st) as [[t|e] st']. }
  rewrite !Howner by done. split; [|done].
  by apply get_tensor_ptr_registry.
Qed.

Lemma owner_from_first_address_witness :
  owner (check_out_of_bounds_access (mkArray [2] [2040; 2004])
           three_tensors_st)
  = owner (check_out_of_bounds_access (mkArray [3; 1] [2040; 1000; 3050])
             three_tensors_st).
Proof.
  apply (owner_from_first_address three_tensors_st three_tensors_st
           (mkArray [2] [2040; 2004]) (mkArray [3; 1] [2040; 1000; 3050])
           2040 eq_refl eq_refl eq_refl).
Defined.

(** ** [_check_storage_contiguous] *)

Lemma prod_app l1 l2 : prod (l1 ++ l2) = prod l1 * prod l2.
Proof.
  unfold prod. induction l1 as [|x l1 IH]; simpl; [lia|]. rewrite IH. lia.
Qed.

Lemma stride_order_perm t :
  stride_order t ≡ₚ seq 0 (length (t_stride t)).
Proof. apply sorted_perm. Qed.

Lemma stride_order_sorted t : Sorted (stride_before t) (stride_order t).
Proof.
  apply (sorted_stable (stride_of t) lt).
  generalize 0%nat. induction (length (t_stride t)) as [|n IH]; intros s;
    simpl; constructor; [apply IH|].
  apply Forall_forall. intros j Hj. apply elem_of_seq in Hj. lia.
Qed.

Lemma stride_order_in_range t index :
  index ∈ stride_order t → (index < length (t_stride t))%nat.
Proof. rewrite stride_order_perm, elem_of_seq. lia. Qed.

Lemma contiguous_walk_spec t : ∀ rest walked,
  Forall (λ j, is_Some (t_stride t !! j) ∧ is_Some (t_shape t !! j)) rest →
  ∃ b,
    contiguous_walk t (length walked) (prod (extent_of t <$> walked)) rest
    = Ok b
    ∧ (b = true ↔
       ∀ (k index : nat), rest !! k = Some index →
         t_stride t !! index
         = Some (match (length walked + k)%nat with
                 | 0%nat => 1
                 | S _ => prod (extent_of t <$> (walked ++ take k rest))
                 end)).
Proof.
  induction rest as [|index rest IH]; intros walked Hrange.
  - exists true. split; [done|]. split; [|done]. intros _ k index. by destruct k.
  - inversion_clear Hrange as [|?? [[s Hs] [e He]] Hrest].
    simpl. unfold getitem. rewrite Hs, He. simpl.
    destruct (bool_decide (length walked = 0%nat) && bool_decide (s ≠ 1))
      eqn:Hfirst.
    { exists false. split; [done|]. split; [done|]. intros Hall.
      specialize (Hall 0%nat index eq_refl).
      apply andb_true_iff in Hfirst as [Hw Hs1].
      apply bool_decide_eq_true in Hw, Hs1.
      rewrite Nat.add_0_r, Hw, Hs in Hall. simpl in Hall. congruence. }
    destruct (bool_decide (length walked ≠ 0%nat)
              && bool_decide (s ≠ prod (extent_of t <$> walked)))
      eqn:Hlater.
    { exists false. split; [done|]. split; [done|]. intros Hall.
      specialize (Hall 0%nat index eq_refl).
      apply andb_true_iff in Hlater as [Hw Hsp].
      apply bool_decide_eq_true in Hw, Hsp.
      rewrite Nat.add_0_r, Hs in Hall. simpl in Hall.
      rewrite app_nil_r in Hall.
      revert Hw Hall. generalize (length walked).
      intros [|n] Hw Hall; [done|by simplify_eq]. }
    destruct (IH (walked ++ [index]) Hrest) as (b & Hrun & Hb).
    exists b. split.
    { rewrite <- Hrun. f_equal.
      - rewrite length_app. simpl. lia.
      - rewrite fmap_app, prod_app. unfold prod at 3, extent_of at 3.
        simpl. rewrite He. simpl. lia. }
    rewrite Hb. clear Hb Hrun IH.
    assert (t_stride t !! index
            = Some (match (length walked + 0)%nat with
                    | 0%nat => 1
                    | S _ => prod (extent_of t <$> (walked ++ take 0 (index :: rest)))
                    end)) as Hhere.
    { rewrite Hs, Nat.add_0_r. simpl. rewrite app_nil_r. f_equal.
      apply andb_false_iff in Hfirst, Hlater.
      revert Hfirst Hlater. generalize (prod (extent_of t <$> walked)).
      generalize (length walked). intros [|n] p Hfirst Hlater.
      - destruct Hfirst as [Hf|Hf]; apply bool_decide_eq_false in Hf; lia.
      - destruct Hlater as [Hf|Hf]; apply bool_decide_eq_false in Hf; lia. }
    split.
    + intros Hall [|k] j Hj.
      * simpl in Hj. by simplify_eq.
      * simpl in Hj. specialize (Hall k j Hj).
        rewrite length_app in Hall. simpl in Hall.
        rewrite <- (assoc_L (++)) in Hall. simpl in Hall.
        replace (length walked + S k)%nat with (length walked + 1 + k)%nat
          by lia. done.
    + intros Hall k j Hj. specialize (Hall (S k) j Hj).
      rewrite length_app. simpl.
      rewrite <- (assoc_L (++)). simpl.
      replace (length walked + 1 + k)%nat with (length walked + S k)%nat
        by lia. done.
Qed.

Lemma stride_order_lookups t :
  length (t_shape t) = length (t_stride t) →
  Forall (λ j, is_Some (t_stride t !! j) ∧ is_Some (t_shape t !! j))
         (stride_order t).
Proof.
  intros Hlen. apply Forall_forall. intros j Hj.
  apply stride_order_in_range in Hj.
  split; apply lookup_lt_is_Some; lia.
Qed.

Lemma check_storage_contiguous_refines t :
  length (t_shape t) = length (t_stride t) →
  ∃ b, _check_storage_contiguous t = Ok b ∧ (b = true ↔ strides_contiguous t).
Proof.
  intros Hlen.
  destruct (contiguous_walk_spec t (stride_order t) []
              (stride_order_lookups t Hlen)) as (b & Hrun & Hb).
  exists b. split; [exact Hrun|]. rewrite Hb. unfold strides_contiguous.
  split; intros Hall k index Hk; specialize (Hall k index Hk);
    simpl in Hall |- *; by destruct k.
Qed.

(** C3: for a tensor whose shape and strides have one length, the check
    returns a Boolean, and it returns true exactly when the walk described
    by the specification passes: the dimensions are taken in ascending order
    of stride (a permutation of all dimensions, equal strides in index
    order), the first must have stride 1 and every later one the running
    product of the extents walked before it.  Shape (4, 4) with strides
    (4, 1) is accepted and shape (4, 4) with strides (8, 2) is rejected. *)
Theorem check_storage_contiguous_spec :
  (∀ t : torch_tensor,
     length (t_shape t) = length (t_stride t) →
     stride_order t ≡ₚ seq 0 (length (t_stride t))
     ∧ Sorted (stride_before t) (stride_order t)
     ∧ is_ok (_check_storage_contiguous t)
     ∧ (_check_storage_contiguous t = Ok true ↔ strides_contiguous t))
  ∧ (∀ p dt es,
       _check_storage_contiguous (mkTorch p dt [4; 1] [4; 4] es) = Ok true)
  ∧ (∀ p dt es,
       _check_storage_contiguous (mkTorch p dt [8; 2] [4; 4] es) = Ok false).
Proof.
  split_and!; [|done|done].
  intros t Hlen.
  destruct (check_storage_contiguous_refines t Hlen) as (b & Hrun & Hb).
  split_and!.
  - apply stride_order_perm.
  - apply stride_order_sorted.
  - by rewrite Hrun.
  - rewrite Hrun, <- Hb. split; [by intros [= ->]|by intros ->].
Qed.

Lemma check_storage_contiguous_spec_witness :
  _check_storage_contiguous (mkTorch 4096 "f32" [12; 4; 1] [2; 3; 4] 4)
  = Ok true
  ↔ strides_contiguous (mkTorch 4096 "f32" [12; 4; 1] [2; 3; 4] 4).
Proof.
  apply (proj1 check_storage_contiguous_spec
           (mkTorch 4096 "f32" [12; 4; 1] [2; 3; 4] 4) eq_refl).
Defined.

(** ** [add_record] and [set_grid_idx] *)

Lemma runs_seq (m k : M unit) st st1 st2 :
  runs m st st1 → runs k st1 st2 → runs (m;; k) st st2.
Proof. unfold runs. intros Hm Hk. by rewrite (bind_ok _ _ _ _ _ Hm). Qed.

Lemma runs_for_nil {A} (body : A → M unit) st : runs (for_ [] body) st st.
Proof. done. Qed.

Lemma runs_for_cons {A} (x : A) l (body : A → M unit) st st1 st2 :
  runs (body x) st st1 → runs (for_ l body) st1 st2 →
  runs (for_ (x :: l) body) st st2.
Proof. apply runs_seq. Qed.

Lemma alter_active (f : Launch → Launch) ls l :
  alter f (pred (length (ls ++ [l]))) (ls ++ [l]) = ls ++ [f l].
Proof.
  rewrite length_app, Nat.add_1_r. simpl.
  rewrite alter_app_r_alt by lia. by rewrite Nat.sub_diag.
Qed.

Lemma launch_with_nil l : launch_with [] l = l.
Proof. destruct l. unfold launch_with. simpl. by rewrite app_nil_r. Qed.

Lemma with_records_nil st : with_records [] st = st.
Proof.
  destruct st. unfold with_records. simpl.
  by rewrite (list_alter_id _ _ _ launch_with_nil).
Qed.

Lemma with_records_cons r rs st :
  with_records rs (with_records [r] st) = with_records (r :: rs) st.
Proof.
  unfold with_records. simpl. rewrite length_alter, list_alter_alter_eq.
  f_equal. apply list_alter_ext; [|done].
  intros l _. unfold launch_with. simpl. by rewrite <- (assoc_L (++)).
Qed.

Lemma record_all_cons r rs st :
  record_all rs (record_all [r] st) = record_all (r :: rs) st.
Proof.
  unfold record_all. destruct (sampled st) eqn:Hs; [|by rewrite Hs].
  change (sampled (with_records [r] st)) with (sampled st). rewrite Hs.
  apply with_records_cons.
Qed.

Lemma record_all_launches rs st :
  launches st ≠ [] → launches (record_all rs st) ≠ [].
Proof.
  unfold record_all. destruct (sampled st); [|done]. simpl.
  intros Hne Hnil. apply Hne, length_zero_iff_nil.
  by rewrite <- (length_alter (launch_with rs) _ (pred (length (launches st)))),
    Hnil.
Qed.

Lemma add_record_run r st :
  launches st ≠ [] → runs (add_record r) st (record_all [r] st).
Proof.
  intros Hne. unfold runs, add_record, record_all. unfold_M.
  destruct (sampled st); [|done].
  destruct (launches st) as [|l ls _] eqn:Hl using rev_ind; [done|].
  rewrite (active_launch_run _ _ _ Hl).
  rewrite (set_active_launch_run _ _ _ _ Hl).
  unfold with_records. by rewrite Hl, alter_active.
Qed.

Lemma add_record_skipped r st : sampled st = false → runs (add_record r) st st.
Proof. intros Hs. unfold runs, add_record. unfold_M. by rewrite Hs. Qed.

Lemma for_add_record_run rs : ∀ st,
  launches st ≠ [] → runs (for_ rs add_record) st (record_all rs st).
Proof.
  induction rs as [|r rs IH]; intros st Hne.
  - unfold record_all. rewrite with_records_nil. by destruct (sampled st).
  - eapply runs_for_cons; [by apply add_record_run|].
    rewrite <- (record_all_cons r rs st). apply IH. by apply record_all_launches.
Qed.

Lemma sampled_accepts st : sampling_wf st → sampled st = true ↔ accepts st.
Proof.
  unfold sampling_wf, sampled, accepts.
  destruct st as [ls s [[x y] z] [[nx ny] nz]]. simpl. intros Hwf.
  destruct s as [idx|]; [|by split; [left|]].
  specialize (Hwf idx eq_refl).
  destruct idx as [|a [|b [|c [|d idx]]]]; simpl in Hwf; try lia; simpl;
    rewrite bool_decide_eq_true.
  all: split;
    [intros [= Heq]; right; eexists; split; [done|exact Heq]
    |intros [[=]|(idx' & [= <-] & Heq)]; simpl in Heq; by rewrite Heq].
Qed.

Lemma set_grid_idx_ok st nx ny nz x y z :
  grid_dim st = (nx, ny, nz) → launches st ≠ [] →
  x < nx → y < ny → z < nz →
  runs (set_grid_idx x y z) st
       (record_all [Grid (x, y, z)] (with_grid_idx (x, y, z) st)).
Proof.
  intros Hdim Hne Hx Hy Hz. destruct st as [ls s gi gd]. simpl in Hdim, Hne.
  subst gd. unfold runs, set_grid_idx. unfold_M. simpl. unfold assert.
  rewrite !bool_decide_eq_true_2 by done. unfold_M.
  by apply (add_record_run _ (mkBuilder ls s (x, y, z) (nx, ny, nz))).
Qed.

Lemma set_grid_idx_raises st nx ny nz x y z :
  grid_dim st = (nx, ny, nz) →
  ¬ (x < nx ∧ y < ny ∧ z < nz) →
  set_grid_idx x y z st = (Raise AssertionError, st).
Proof.
  intros Hdim Hout. unfold set_grid_idx. unfold_M. rewrite Hdim.
  unfold assert. repeat (case_bool_decide; unfold_M; try done). lia.
Qed.

(** A component below zero passes the three assertions, which compare with
    the upper bounds only: the cell (-1, 0, 0) becomes the active index of
    the grid (2, 2, 1). *)
Lemma set_grid_idx_negative_component :
  ¬ (0 ≤ -1 < 2)
  ∧ set_grid_idx (-1) 0 0 grid_2_2_1_st
    = (Ok (), mkBuilder [mkLaunch (2, 2, 1) [] [Grid (-1, 0, 0)]]
                        None (-1, 0, 0) (2, 2, 1)).
Proof. split; [lia|reflexivity]. Qed.

(** C5, amended: with an active launch of grid shape (nx, ny, nz),
    [set_grid_idx x y z] succeeds whenever each component is below its
    bound; it then makes (x, y, z) the active index and hands a [Grid] record
    of that index to [add_record].  It fails with an assertion error, the
    recorder unchanged, whenever some component is at or above its bound.
    Components are not compared with zero. *)
Theorem set_grid_idx_upper_bounds (st : RecordBuilder) (nx ny nz x y z : Z) :
  grid_dim st = (nx, ny, nz) →
  launches st ≠ [] →
  (x < nx ∧ y < ny ∧ z < nz →
   ∃ st',
     set_grid_idx x y z st = (Ok (), st')
     ∧ grid_idx st' = (x, y, z)
     ∧ add_record (Grid (x, y, z)) (with_grid_idx (x, y, z) st) = (Ok (), st')
     ∧ st' = record_all [Grid (x, y, z)] (with_grid_idx (x, y, z) st))
  ∧ (nx ≤ x ∨ ny ≤ y ∨ nz ≤ z →
     set_grid_idx x y z st = (Raise AssertionError, st)).
Proof.
  intros Hdim Hne. split.
  - intros (Hx & Hy & Hz).
    exists (record_all [Grid (x, y, z)] (with_grid_idx (x, y, z) st)).
    split_and!; [by eapply set_grid_idx_ok| |by apply add_record_run|done].
    unfold record_all. by destruct (sampled _).
  - intros Hout. eapply set_grid_idx_raises; [done|lia].
Qed.

Lemma set_grid_idx_upper_bounds_witness :
  (∃ st', set_grid_idx 1 0 0 grid_2_2_1_st = (Ok (), st')
          ∧ grid_idx st' = (1, 0, 0))
  ∧ set_grid_idx 0 2 0 grid_2_2_1_st = (Raise AssertionError, grid_2_2_1_st).
Proof.
  destruct (set_grid_idx_upper_bounds grid_2_2_1_st 2 2 1 1 0 0 eq_refl)
    as [Hin _]; [discriminate|].
  destruct (set_grid_idx_upper_bounds grid_2_2_1_st 2 2 1 0 2 0 eq_refl)
    as [_ Hout]; [discriminate|].
  split.
  - destruct Hin as (st' & Hrun & Hidx & _); [lia|]. by exists st'.
  - apply Hout. lia.
Defined.

Lemma runs_to (m : M unit) st st1 st2 : runs m st st1 → st1 = st2 → runs m st st2.
Proof. by intros ? <-. Qed.

(** One cell of the grid (2, 2, 1): the active index is set and the records
    of the cell are handed to [add_record]. *)
Ltac run_cell :=
  eapply runs_seq;
  [ eapply (set_grid_idx_ok _ 2 2 1);
    [ reflexivity | vm_compute; discriminate | lia | lia | lia ]
  | apply for_add_record_run; vm_compute; discriminate ].

(** C4: with an active launch and a sampling target that is unset or has one
    to three components, [add_record] appends the record to the records of
    the active launch when no target is set or the target and the active
    index flatten to the same number, and leaves the recorder as it is
    otherwise.  On the grid (2, 2, 1) with target (0, 1), visiting the four
    cells in order and handing any records to [add_record] in each, the
    launch ends with the [Grid] marker of cell (0, 1, 0) followed by the
    records of that cell, and nothing from the other three cells. *)
Theorem add_record_sampling_filter :
  (∀ (st : RecordBuilder) ls l (r : trace_record),
     launches st = ls ++ [l] →
     sampling_wf st →
     (accepts st →
      add_record r st
      = (Ok (), mkBuilder
                  (ls ++ [mkLaunch (grid l) (tensors l) (records l ++ [r])])
                  (sampling_grid_idx st) (grid_idx st) (grid_dim st)))
     ∧ (¬ accepts st → add_record r st = (Ok (), st)))
  ∧ (∀ recs : Z → Z → Z → list trace_record,
       (set_sampling_grid_idx [0; 1];;
        set_grid_dim 2 2 1;;
        grid_loop 2 2 1 (λ x y z, for_ (recs x y z) add_record)) fresh
       = (Ok (), mkBuilder
                   [mkLaunch (2, 2, 1) [] (Grid (0, 1, 0) :: recs 0 1 0)]
                   (Some [0; 1]) (1, 1, 0) (2, 2, 1))).
Proof.
  split.
  - intros st ls l r Hl Hwf.
    assert (launches st ≠ []) as Hne by (rewrite Hl; by destruct ls).
    pose proof (sampled_accepts st Hwf) as Hacc. split.
    + intros Ha. apply Hacc in Ha.
      rewrite (add_record_run r st Hne). unfold record_all. rewrite Ha.
      unfold with_records. by rewrite Hl, alter_active.
    + intros Ha. apply add_record_skipped.
      destruct (sampled st); [|done]. exfalso. by apply Ha, Hacc.
  - intros recs.
    change (runs (set_sampling_grid_idx [0; 1];;
                  set_grid_dim 2 2 1;;
                  grid_loop 2 2 1 (λ x y z, for_ (recs x y z) add_record))
              fresh
              (mkBuilder
                 [mkLaunch (2, 2, 1) [] (Grid (0, 1, 0) :: recs 0 1 0)]
                 (Some [0; 1]) (1, 1, 0) (2, 2, 1))).
    eapply runs_to.
    + eapply runs_seq; [reflexivity|].
      eapply runs_seq; [reflexivity|].
      unfold grid_loop.
      change (range 2) with [0; 1]. change (range 1) with [0].
      eapply runs_for_cons; cbv beta.
      { eapply runs_for_cons; cbv beta.
        { eapply runs_for_cons; cbv beta; [run_cell|apply runs_for_nil]. }
        eapply runs_for_cons; cbv beta; [|apply runs_for_nil].
        eapply runs_for_cons; cbv beta; [run_cell|apply runs_for_nil]. }
      eapply runs_for_cons; cbv beta; [|apply runs_for_nil].
      eapply runs_for_cons; cbv beta.
      { eapply runs_for_cons; cbv beta; [run_cell|apply runs_for_nil]. }
      eapply runs_for_cons; cbv beta; [|apply runs_for_nil].
      eapply runs_for_cons; cbv beta; [run_cell|apply runs_for_nil].
    + reflexivity.
Qed.

Lemma add_record_sampling_filter_witness :
  add_record (MakeRange 0 8)
    (mkBuilder [mkLaunch (2, 2, 1) [] []] (Some [0; 1]) (0, 1, 0) (2, 2, 1))
  = (Ok (), mkBuilder [mkLaunch (2, 2, 1) [] [MakeRange 0 8]]
                      (Some [0; 1]) (0, 1, 0) (2, 2, 1)).
Proof.
  apply (proj1 add_record_sampling_filter
           (mkBuilder [mkLaunch (2, 2, 1) [] []] (Some [0; 1]) (0, 1, 0)
                      (2, 2, 1))
           [] (mkLaunch (2, 2, 1) [] []) (MakeRange 0 8) eq_refl).
  - intros idx [= <-]. simpl. lia.
  - right. exists [0; 1]. split; reflexivity.
Defined.

(** ** [_grid_executor_call] *)

Lemma collect_tensors_rejected constexprs args :
  Exists (rejected constexprs) args →
  ∀ acc, ∃ e, collect_tensors constexprs args acc = Raise e.
Proof.
  induction 1 as [[name arg] args (Hname & t & Harg & Hcheck)
                 |[name arg] args _ IH]; intros acc; simpl in *.
  - subst arg. rewrite bool_decide_eq_false_2 by done.
    rewrite Hcheck. simpl. by exists AssertionError.
  - case_bool_decide; [apply IH|].
    destruct arg as [t|v]; [|apply IH].
    destruct (_check_storage_contiguous t) as [[|]|e]; simpl;
      [apply IH|by exists AssertionError|by exists e].
Qed.

Lemma collect_tensors_assertion constexprs args :
  Forall arg_wf args →
  ∀ acc e, collect_tensors constexprs args acc = Raise e → e = AssertionError.
Proof.
  induction 1 as [|[name arg] args Hwf _ IH]; intros acc e; simpl; [done|].
  case_bool_decide; [apply IH|].
  destruct arg as [t|v]; [|apply IH].
  destruct (check_storage_contiguous_refines t (Hwf t eq_refl))
    as (b & -> & _).
  simpl. destruct b; [apply IH|]. by intros [= <-].
Qed.

(** C6: when some argument fails the contiguity assertion, a call that is
    not a warm-up ends in an exception and the recorder is exactly as it was
    before the call: no launch was declared, no tensor registered, no record
    appended.  The exception is the assertion error when all tensor
    arguments have as many strides as dimensions.  (A warm-up call returns
    at once and leaves the recorder untouched as well.) *)
Theorem grid_executor_call_rejects_layout (constexprs : list string)
    (grid : list Z) (fn : Z → Z → Z → M unit)
    (args : list (string * kernel_arg)) (st : RecordBuilder) :
  Exists (rejected constexprs) args →
  (∃ e, _grid_executor_call constexprs grid fn false args st = (Raise e, st))
  ∧ (Forall arg_wf args →
     _grid_executor_call constexprs grid fn false args st
     = (Raise AssertionError, st))
  ∧ (∀ warmup, (_grid_executor_call constexprs grid fn warmup args st).2 = st).
Proof.
  intros Hrej.
  destruct (collect_tensors_rejected constexprs args Hrej []) as [e He].
  assert (_grid_executor_call constexprs grid fn false args st = (Raise e, st))
    as Hrun.
  { unfold _grid_executor_call. unfold_M. by rewrite He. }
  split_and!.
  - by exists e.
  - intros Hwf. rewrite Hrun.
    by rewrite (collect_tensors_assertion constexprs args Hwf [] e He).
  - intros [|]; [done|]. by rewrite Hrun.
Qed.

Lemma grid_executor_call_rejects_layout_witness :
  _grid_executor_call [] [2; 2]
    (λ x y z, create_make_range 0 8) false strided_args three_tensors_st
  = (Raise AssertionError, three_tensors_st).
Proof.
  apply (grid_executor_call_rejects_layout [] [2; 2]
           (λ x y z, create_make_range 0 8) strided_args three_tensors_st).
  - apply Exists_cons_tl, Exists_cons_hd. split; [apply not_elem_of_nil|].
    eexists. split; reflexivity.
  - repeat constructor; intros t [= <-]; reflexivity.
Defined.

(** A call whose tensor arguments are all contiguous declares a launch,
    registers the tensors in ascending order of base address and records
    cell by cell. *)
Lemma grid_executor_call_traces :
  _grid_executor_call ["BLOCK"] [2] (λ x y z, create_make_range 0 8) false
    [("x_ptr", TensorArg (mkTorch 4096 "f32" [4; 1] [4; 4] 4));
     ("BLOCK", ValueArg 8);
     ("z_ptr", TensorArg (mkTorch 1024 "f32" [1] [16] 4))] fresh
  = (Ok (), mkBuilder
              [mkLaunch (2, 1, 1)
                 [mkTensor 1024 "f32" [1] [16] 4;
                  mkTensor 4096 "f32" [4; 1] [4; 4] 4]
                 [Grid (0, 0, 0); MakeRange 0 8;
                  Grid (1, 0, 0); MakeRange 0 8]]
              None (1, 0, 0) (2, 1, 1)).
Proof. reflexivity. Qed.

(** * Further properties *)

(** ** The recorder before a grid is declared, and failures of the lookup *)

(** Before any grid is declared, [add_tensors] and [sort_tensor_handles]
    raise [IndexError]; [add_record] raises it when the sampling condition
    lets the record through and returns silently when it does not.  The
    recorder is unchanged in every case. *)
Theorem no_launch_calls (st : RecordBuilder) (r : trace_record)
    (ts : list Tensor) :
  launches st = [] →
  add_tensors ts st = (Raise IndexError, st)
  ∧ sort_tensor_handles st = (Raise IndexError, st)
  ∧ add_record r st = (if sampled st then Raise IndexError else Ok (), st).
Proof.
  intros Hl. unfold add_tensors, sort_tensor_handles, add_record, active_launch.
  unfold_M. rewrite Hl. simpl. split_and!.
  - done.
  - done.
  - destruct (sampled st); [|done]. by rewrite Hl.
Qed.

Lemma no_launch_calls_witness :
  add_record (MakeRange 0 4) fresh = (Raise IndexError, fresh)
  ∧ add_record (MakeRange 0 4)
      (mkBuilder [] (Some [1]) (0, 0, 0) (1, 1, 1))
    = (Ok (), mkBuilder [] (Some [1]) (0, 0, 0) (1, 1, 1)).
Proof.
  split.
  - apply (no_launch_calls fresh (MakeRange 0 4) [] eq_refl).
  - apply (no_launch_calls (mkBuilder [] (Some [1]) (0, 0, 0) (1, 1, 1))
             (MakeRange 0 4) [] eq_refl).
Defined.

(** [get_tensor_ptr] returns a tensor exactly when there is an active launch
    with at least one registered tensor, and [check_out_of_bounds_access]
    exactly when in addition the batch is not empty; otherwise they raise
    [IndexError].  Neither changes the recorder. *)
Theorem lookup_succeeds_iff (st : RecordBuilder) (p : Z) (ptrs : ndarray Z) :
  (is_ok (get_tensor_ptr p st).1
   ↔ ∃ l, last (launches st) = Some l ∧ tensors l ≠ [])
  ∧ (is_ok (check_out_of_bounds_access ptrs st).1
     ↔ nd_data ptrs ≠ [] ∧ ∃ l, last (launches st) = Some l ∧ tensors l ≠ [])
  ∧ (¬ is_ok (get_tensor_ptr p st).1 →
     get_tensor_ptr p st = (Raise IndexError, st))
  ∧ (¬ is_ok (check_out_of_bounds_access ptrs st).1 →
     check_out_of_bounds_access ptrs st = (Raise IndexError, st))
  ∧ (get_tensor_ptr p st).2 = st
  ∧ (check_out_of_bounds_access ptrs st).2 = st.
Proof.
  assert (∀ q,
    (∃ l t, last (launches st) = Some l ∧ tensors l ≠ []
            ∧ get_tensor_ptr q st = (Ok t, st))
    ∨ ((¬ ∃ l, last (launches st) = Some l ∧ tensors l ≠ [])
       ∧ get_tensor_ptr q st = (Raise IndexError, st))) as Hget.
  { intros q. destruct (last (launches st)) as [l|] eqn:Hlast.
    - destruct (last_split _ _ Hlast) as [ls Hl].
      destruct (decide (tensors l = [])) as [He|Hne].
      + right. split; [by intros (l' & [= <-] & ?)|].
        rewrite (get_tensor_ptr_run _ _ _ _ Hl), He. done.
      + left. destruct (resolve_nonempty st ls l q Hl Hne) as (t & Ht & _).
        by exists l, t.
    - right. split; [by intros (l' & [=] & ?)|].
      unfold get_tensor_ptr, active_launch. unfold_M. by rewrite Hlast. }
  assert ((∃ r, nd_data ptrs ≠ []
                ∧ (∃ l, last (launches st) = Some l ∧ tensors l ≠ [])
                ∧ check_out_of_bounds_access ptrs st = (Ok r, st))
          ∨ (¬ (nd_data ptrs ≠ []
                ∧ ∃ l, last (launches st) = Some l ∧ tensors l ≠ [])
             ∧ check_out_of_bounds_access ptrs st = (Raise IndexError, st)))
    as Hcheck.
  { destruct (nd_data ptrs) as [|a rest] eqn:Hdata.
    - right. split; [by intros [? _]|].
      by apply check_out_of_bounds_access_empty.
    - assert (nd_data ptrs !! 0%nat = Some a) as H0 by by rewrite Hdata.
      rewrite (check_out_of_bounds_access_run _ _ _ H0).
      destruct (Hget a) as [(l & t & Hlast & Hne & ->)|[Hno ->]].
      + left. eexists. split_and!; [done|by exists l|done].
      + right. split; [by intros [_ ?]|done]. }
  split_and!.
  - destruct (Hget p) as [(l & t & Hlast & Hne & ->)|[Hno ->]]; simpl.
    + split; [by exists l|done].
    + split; [done|]. intros H. by apply Hno.
  - destruct Hcheck as [(r & Hb & Hl & ->)|[Hno ->]]; simpl.
    + by split.
    + split; [done|]. intros H. by apply Hno.
  - destruct (Hget p) as [(l & t & Hlast & Hne & ->)|[Hno ->]]; simpl;
      [by intros []|done].
  - destruct Hcheck as [(r & Hb & Hl & ->)|[Hno ->]]; simpl;
      [by intros []|done].
  - by destruct (Hget p) as [(l & t & Hlast & Hne & ->)|[Hno ->]].
  - by destruct Hcheck as [(r & Hb & Hl & ->)|[Hno ->]].
Qed.

Lemma lookup_succeeds_iff_witness :
  is_ok (get_tensor_ptr 2500 three_tensors_st).1.
Proof.
  apply (proj1 (lookup_succeeds_iff three_tensors_st 2500 (mkArray [] []))).
  exists three_tensors. split; [reflexivity|discriminate].
Defined.

(** ** What the bounds check records *)

Lemma get_tensor_ptr_state p st : (get_tensor_ptr p st).2 = st.
Proof.
  unfold get_tensor_ptr, active_launch. unfold_M.
  by destruct (last (launches st)).
Qed.

Lemma check_out_of_bounds_access_inv ptrs st r st' :
  check_out_of_bounds_access ptrs st = (Ok r, st') →
  st' = st
  ∧ ∃ a t, nd_data ptrs !! 0%nat = Some a
           ∧ get_tensor_ptr a st = (Ok t, st)
           ∧ r = access_masks t ptrs.
Proof.
  intros Hrun. destruct (nd_data ptrs !! 0%nat) as [a|] eqn:H0.
  - rewrite (check_out_of_bounds_access_run _ _ _ H0) in Hrun.
    pose proof (get_tensor_ptr_state a st) as Hst.
    destruct (get_tensor_ptr a st) as [[t|e] st1] eqn:Hget; [|done].
    simpl in Hst. subst st1. injection Hrun as <- <-.
    split; [done|]. by exists a, t.
  - rewrite check_out_of_bounds_access_empty in Hrun; [done|].
    by destruct (nd_data ptrs).
Qed.

Lemma access_masks_lookup_inv t ptrs (i : nat) :
  let '(_, valid, invalid, corrected, raw) := access_masks t ptrs in
  (is_Some (nd_data valid !! i) ∨ is_Some (nd_data corrected !! i)
   ∨ is_Some (nd_data raw !! i) ∨ is_Some (nd_data invalid !! i)) →
  is_Some (nd_data ptrs !! i).
Proof.
  unfold access_masks. simpl.
  rewrite lookup_zip_with, !list_lookup_fmap.
  destruct (nd_data ptrs !! i); simpl; [by eauto|].
  intros [[? [=]]|[[? [=]]|[[? [=]]|[? [=]]]]].
Qed.

(** A size below the signed 64-bit range wraps to a positive one: the
    computed size, not the sign of the exact product, decides whether a
    position can be valid. *)
Lemma check_out_of_bounds_access_negative_size :
  let t := mkTensor 1000 "i8" [1; 1] [-3; 4611686018427387904] 1 in
  let st := mkBuilder [mkLaunch (1, 1, 1) [t] []] None (0, 0, 0) (1, 1, 1) in
  extent t ≤ 0
  ∧ computed_extent t = 4611686018427387904
  ∧ check_out_of_bounds_access (mkArray [1] [1005]) st
    = (Ok (t, mkArray [1] [true], mkArray [1] [false], mkArray [1] [5],
           mkArray [1] [5]), st).
Proof. split_and!; [by vm_compute|reflexivity|reflexivity]. Qed.

(** A tensor that would run past the end of the address space: an address
    below its base address gets a small wrapped offset and is marked valid. *)
Lemma check_out_of_bounds_access_past_end :
  let t := mkTensor 18446744073709551615 "i8" [1] [16] 1 in
  let st := mkBuilder [mkLaunch (1, 1, 1) [t] []] None (0, 0, 0) (1, 1, 1) in
  is_address 0
  ∧ ¬ in_address_space t
  ∧ check_out_of_bounds_access (mkArray [1] [0]) st
    = (Ok (t, mkArray [1] [true], mkArray [1] [false], mkArray [1] [1],
           mkArray [1] [1]), st).
Proof.
  split_and!; [by vm_compute| |reflexivity].
  intros (_ & _ & Hend). by vm_compute in Hend.
Qed.

(** The offsets handed on as corrected are safe to index with: each is at
    least 0 and, for a tensor of positive size, below its size in bytes; it
    is 0 or below the size the program computes.  A position marked valid
    keeps its raw offset.  When the computed size is 0 or less, and so when
    the size of the tensor is 0 or less without leaving the signed 64-bit
    range, every position is marked invalid and every corrected offset
    is 0. *)
Theorem corrected_offsets_in_extent (st st' : RecordBuilder)
    (ptrs : ndarray Z) (t : Tensor) (valid invalid : ndarray bool)
    (corrected raw : ndarray Z) :
  check_out_of_bounds_access ptrs st
  = (Ok (t, valid, invalid, corrected, raw), st') →
  (∀ (i : nat) c, nd_data corrected !! i = Some c →
     0 ≤ c ∧ (0 < extent t → c < extent t))
  ∧ (∀ i : nat, nd_data valid !! i = Some true →
       nd_data corrected !! i = nd_data raw !! i)
  ∧ (extent t ≤ 0 → - 2 ^ 63 ≤ extent t →
     (∀ (i : nat) v, nd_data valid !! i = Some v → v = false)
     ∧ (∀ (i : nat) c, nd_data corrected !! i = Some c → c = 0))
  ∧ (∀ (i : nat) c, nd_data corrected !! i = Some c →
       c = 0 ∨ c < computed_extent t)
  ∧ (computed_extent t ≤ 0 →
     (∀ (i : nat) v, nd_data valid !! i = Some v → v = false)
     ∧ (∀ (i : nat) c, nd_data corrected !! i = Some c → c = 0)).
Proof.
  intros Hrun.
  apply check_out_of_bounds_access_inv in Hrun as (_ & a0 & t0 & _ & _ & Hr).
  pose proof (access_masks_lookup t0 ptrs) as Hfwd.
  pose proof (access_masks_lookup_inv t0 ptrs) as Hinv.
  rewrite <- Hr in Hfwd, Hinv. injection Hr as <- _ _ _ _. clear a0.
  assert (∀ i : nat,
    (is_Some (nd_data valid !! i) ∨ is_Some (nd_data corrected !! i)) →
    ∃ o, let inside := bool_decide (0 ≤ o < computed_extent t) in
         nd_data raw !! i = Some o
         ∧ nd_data valid !! i = Some inside
         ∧ nd_data corrected !! i = Some (if inside then o else 0))
    as Hat.
  { intros i Hi.
    destruct (Hinv i) as [a Ha]; [destruct Hi; eauto|].
    exists (wrap_uint64 (a - ptr t)).
    destruct (Hfwd i a Ha) as (? & ? & _ & ?). done. }
  assert (computed_extent t ≤ 0 →
     (∀ (i : nat) v, nd_data valid !! i = Some v → v = false)
     ∧ (∀ (i : nat) c, nd_data corrected !! i = Some c → c = 0)) as Hempty.
  { intros Hext. split.
    - intros i v Hv. destruct (Hat i) as (o & _ & Hval & _); [by eauto|].
      simpl in Hval. rewrite Hv in Hval. injection Hval as ->.
      apply bool_decide_eq_false. lia.
    - intros i c Hc. destruct (Hat i) as (o & _ & _ & Hcor); [by eauto|].
      simpl in Hcor. rewrite Hc in Hcor. injection Hcor as ->.
      rewrite bool_decide_eq_false_2; [done|lia]. }
  split_and!.
  - intros i c Hc. destruct (Hat i) as (o & _ & _ & Hcor); [by eauto|].
    simpl in Hcor. rewrite Hc in Hcor. injection Hcor as ->.
    case_bool_decide as Hin; [|lia].
    split; [lia|]. intros Hpos.
    pose proof (computed_extent_le t ltac:(lia)). lia.
  - intros i Hv. destruct (Hat i) as (o & Hraw & Hval & Hcor); [by eauto|].
    simpl in *. rewrite Hv in Hval. injection Hval as Hin.
    rewrite <- Hin in Hcor. by rewrite Hcor, Hraw.
  - intros Hext Hlow. apply Hempty. rewrite computed_extent_fits; [done|].
    assert (0 < 2 ^ 63) by done. lia.
  - intros i c Hc. destruct (Hat i) as (o & _ & _ & Hcor); [by eauto|].
    simpl in Hcor. rewrite Hc in Hcor. injection Hcor as ->.
    case_bool_decide as Hin; [right; lia|by left].
  - exact Hempty.
Qed.

Lemma corrected_offsets_in_extent_witness :
  0 ≤ 32 ∧ 32 < extent (scenario_tensor "f32" [4; 1]).
Proof.
  destruct (corrected_offsets_in_extent
    (mkBuilder [mkLaunch (1, 1, 1) [scenario_tensor "f32" [4; 1]] []]
               None (0, 0, 0) (1, 1, 1)) _
    (mkArray [4] [1000; 1032; 1064; 2000]) (scenario_tensor "f32" [4; 1])
    (mkArray [4] [true; true; false; false])
    (mkArray [4] [false; false; true; true])
    (mkArray [4] [0; 32; 0; 0]) (mkArray [4] [0; 32; 64; 1000]) eq_refl)
    as [Hsafe _].
  destruct (Hsafe 1%nat 32 eq_refl) as [Hlow Hhigh].
  split; [exact Hlow|]. apply Hhigh. reflexivity.
Defined.

(** The wrappers of the masked load and store run the bounds check before
    the sampling condition is looked at: when the check raises, so does the
    wrapper, whatever the active cell.  Otherwise the record handed to
    [add_record] enables only positions that the caller's mask enables and
    whose raw offset is below the computed size of the owning tensor, and at
    those positions the recorded offset is the raw offset.  For an address
    and a tensor inside the address space these are the positions whose
    address lies inside the tensor, and the recorded offset is the distance
    from the base address. *)
Theorem masked_access_record (st : RecordBuilder) (ptrs : ndarray Z)
    (mask : ndarray bool) :
  (∀ e, check_out_of_bounds_access ptrs st = (Raise e, st) →
     create_masked_load ptrs mask st = (Raise e, st)
     ∧ create_masked_store ptrs mask st = (Raise e, st))
  ∧ (∀ t valid invalid corrected raw,
       check_out_of_bounds_access ptrs st
       = (Ok (t, valid, invalid, corrected, raw), st) →
       let masks := nd_zip_with andb valid mask in
       create_masked_load ptrs mask st
       = add_record (Load (ptr t) (nd_shape ptrs) corrected masks invalid
                          raw mask) st
       ∧ create_masked_store ptrs mask st
         = add_record (Store (ptr t) (nd_shape ptrs) corrected masks invalid
                             raw mask) st
       ∧ ∀ i : nat, nd_data masks !! i = Some true →
           nd_data mask !! i = Some true
           ∧ ∃ a, nd_data ptrs !! i = Some a
                  ∧ 0 ≤ wrap_uint64 (a - ptr t) < computed_extent t
                  ∧ nd_data corrected !! i = Some (wrap_uint64 (a - ptr t))
                  ∧ (is_address a → in_address_space t →
                     ptr t ≤ a < ptr t + extent t
                     ∧ nd_data corrected !! i = Some (a - ptr t))).
Proof.
  split.
  - intros e He. unfold create_masked_load, create_masked_store. unfold_M.
    by rewrite He.
  - intros t valid invalid corrected raw Hrun masks. split_and!.
    + unfold create_masked_load. unfold_M. by rewrite Hrun.
    + unfold create_masked_store. unfold_M. by rewrite Hrun.
    + intros i Hi. subst masks. simpl in Hi.
      apply lookup_zip_with_Some in Hi as (v & m & Hvm & Hv & Hm).
      symmetry in Hvm. apply andb_true_iff in Hvm as [-> ->].
      split; [done|].
      apply check_out_of_bounds_access_inv in Hrun
        as (_ & a0 & t0 & _ & _ & Hr).
      pose proof (access_masks_lookup t0 ptrs i) as Hfwd.
      pose proof (access_masks_lookup_inv t0 ptrs i) as Hinv.
      rewrite <- Hr in Hfwd, Hinv. injection Hr as <- _ _ _ _.
      destruct Hinv as [a Ha]; [by eauto|].
      destruct (Hfwd a Ha) as (_ & Hval & _ & Hcor). simpl in Hval, Hcor.
      rewrite Hv in Hval. injection Hval as Hin. rewrite <- Hin in Hcor.
      symmetry in Hin. apply bool_decide_eq_true in Hin.
      exists a. split_and!; [done|lia|lia|done|].
      intros Ha_addr Ht.
      destruct (offset_inside a t Ha_addr Ht Hin) as [Hrange Hoff].
      split; [done|]. by rewrite <- Hoff.
Qed.

Lemma masked_access_record_witness :
  create_masked_load (mkArray [0] []) (mkArray [0] []) three_tensors_st
  = (Raise IndexError, three_tensors_st).
Proof.
  apply (proj1 (masked_access_record three_tensors_st (mkArray [0] [])
                  (mkArray [0] [])) IndexError eq_refl).
Defined.

(** ** Resolution on a sorted registry *)




(** ** More on [sorted] and [sort_tensor_handles] *)

Section py_sorted_more.
Context {A : Type} (key : A → Z).

Lemma insert_by_head x l :
  HdRel (key_le key) x l → insert_by key x l = x :: l.
Proof.
  destruct 1 as [|y l Hxy]; simpl; [done|].
  by rewrite bool_decide_eq_true_2.
Qed.

Lemma sorted_id l : Sorted (key_le key) l → sorted key l = l.
Proof.
  induction 1 as [|x l Hl IH Hx]; simpl; [done|].
  rewrite IH. by apply insert_by_head.
Qed.

Lemma insert_by_last x l :
  Forall (λ y, key y < key x) l → insert_by key x l = l ++ [x].
Proof.
  induction 1 as [|y l Hy Hl IH]; simpl; [done|].
  rewrite bool_decide_eq_false_2 by lia. by rewrite IH.
Qed.

Lemma sorted_descending l :
  StronglySorted (λ a b, key b < key a) l → sorted key l = reverse l.
Proof.
  induction 1 as [|x l Hl IH Hx]; simpl; [done|].
  rewrite IH, reverse_cons. apply insert_by_last.
  by apply Forall_reverse.
Qed.

Lemma insert_by_filter (k : Z) x l :
  filter (λ a, key a = k) (insert_by key x l)
  = filter (λ a, key a = k) (x :: l).
Proof.
  induction l as [|y l IH]; simpl; [done|].
  case_bool_decide as Hxy; [done|].
  rewrite (filter_cons _ y), IH, !(filter_cons _ x), (filter_cons _ y).
  repeat case_decide; try done. lia.
Qed.

Lemma sorted_filter (k : Z) l :
  filter (λ a, key a = k) (sorted key l) = filter (λ a, key a = k) l.
Proof.
  induction l as [|x l IH]; simpl; [done|].
  by rewrite insert_by_filter, !filter_cons, IH.
Qed.

Lemma key_then_trans (before : relation A) :
  Transitive before → Transitive (key_then key before).
Proof.
  intros Htrans a b c [Hab|[Hab Hab']] [Hbc|[Hbc Hbc']]; unfold key_then;
    [left; lia|left; lia|left; lia|right].
  split; [lia|by etrans].
Qed.
End py_sorted_more.

(** [sort_tensor_handles] is idempotent and stable: sorting again changes
    nothing, and the tensors that share a base address stay in the order in
    which they were registered.  Grid and records of the launch are kept. *)
Theorem sort_tensor_handles_stable (st : RecordBuilder) ls l :
  launches st = ls ++ [l] →
  ∃ ts',
    sort_tensor_handles st
    = (Ok (), mkBuilder (ls ++ [mkLaunch (grid l) ts' (records l)])
                        (sampling_grid_idx st) (grid_idx st) (grid_dim st))
    ∧ (sort_tensor_handles;; sort_tensor_handles) st = sort_tensor_handles st
    ∧ ∀ p, filter (λ t, ptr t = p) ts' = filter (λ t, ptr t = p) (tensors l).
Proof.
  intros Hl. exists (sorted ptr (tensors l)).
  pose proof (sort_tensor_handles_run st ls l Hl) as Hrun.
  split_and!; [done| |intros p; apply sorted_filter].
  rewrite (bind_ok _ _ _ _ _ Hrun), Hrun.
  rewrite (sort_tensor_handles_run _ ls
             (mkLaunch (grid l) (sorted ptr (tensors l)) (records l)))
    by done.
  simpl. by rewrite (sorted_id ptr _ (sorted_Sorted ptr (tensors l))).
Qed.

Lemma sort_tensor_handles_stable_witness :
  (sort_tensor_handles;; sort_tensor_handles)
    (mkBuilder [mkLaunch (1, 1, 1)
                  [mkTensor 2000 "f32" [1] [8] 4;
                   mkTensor 1000 "f32" [4; 1] [2; 4] 4;
                   mkTensor 1000 "f32" [1] [8] 4] []]
               None (0, 0, 0) (1, 1, 1))
  = (Ok (), mkBuilder [mkLaunch (1, 1, 1)
                         [mkTensor 1000 "f32" [4; 1] [2; 4] 4;
                          mkTensor 1000 "f32" [1] [8] 4;
                          mkTensor 2000 "f32" [1] [8] 4] []]
                      None (0, 0, 0) (1, 1, 1)).
Proof.
  destruct (sort_tensor_handles_stable
    (mkBuilder [mkLaunch (1, 1, 1)
                  [mkTensor 2000 "f32" [1] [8] 4;
                   mkTensor 1000 "f32" [4; 1] [2; 4] 4;
                   mkTensor 1000 "f32" [1] [8] 4] []]
               None (0, 0, 0) (1, 1, 1)) [] _ eq_refl)
    as (ts' & _ & Htwice & _).
  rewrite Htwice. reflexivity.
Defined.

(** ** More on [_check_storage_contiguous] *)

#[local] Instance stride_before_trans t : Transitive (stride_before t).
Proof. apply key_then_trans. intros a b c. lia. Qed.

Lemma stride_order_first t :
  t_stride t ≠ [] → ∃ i0 rest, stride_order t = i0 :: rest.
Proof.
  intros Hne. destruct (stride_order t) as [|i0 rest] eqn:Ho; [|by eauto].
  pose proof (stride_order_perm t) as Hp. rewrite Ho in Hp.
  apply Permutation_nil in Hp. apply (f_equal length) in Hp.
  rewrite length_seq in Hp. by destruct (t_stride t).
Qed.

(** A tensor with at least one dimension is rejected when none of its
    strides is 1, and when one of its strides is 0 or negative (as for a
    dimension expanded by broadcasting). *)
Theorem check_storage_contiguous_rejects (t : torch_tensor) :
  length (t_shape t) = length (t_stride t) →
  t_stride t ≠ [] →
  1 ∉ t_stride t ∨ (∃ s, s ∈ t_stride t ∧ s ≤ 0) →
  _check_storage_contiguous t = Ok false.
Proof.
  intros Hlen Hne Hbad.
  destruct (check_storage_contiguous_refines t Hlen) as (b & -> & Hb).
  destruct b; [exfalso|done].
  destruct Hb as [Hwalk _]. specialize (Hwalk eq_refl).
  destruct (stride_order_first t Hne) as (i0 & rest & Ho).
  assert (t_stride t !! i0 = Some 1) as H0.
  { apply (Hwalk 0%nat). by rewrite Ho. }
  destruct Hbad as [Hno|(s & Hs & Hle)].
  - apply Hno. by eapply list_elem_of_lookup_2.
  - apply list_elem_of_lookup_1 in Hs as [j Hj].
    assert (j ∈ stride_order t) as Hin.
    { rewrite stride_order_perm, elem_of_seq.
      apply lookup_lt_Some in Hj. lia. }
    pose proof (stride_order_sorted t) as Hsorted.
    apply (Sorted_StronglySorted (stride_before t)) in Hsorted.
    rewrite Ho in Hsorted, Hin.
    apply StronglySorted_cons in Hsorted as [Hall _].
    assert (stride_of t i0 = 1) as Hi0 by (unfold stride_of; by rewrite H0).
    assert (stride_of t j = s) as Hjs by (unfold stride_of; by rewrite Hj).
    apply elem_of_cons in Hin as [->|Hin]; [lia|].
    rewrite Forall_forall in Hall. specialize (Hall _ Hin).
    unfold stride_before, key_then in Hall. lia.
Qed.

Lemma check_storage_contiguous_rejects_witness :
  _check_storage_contiguous (mkTorch 4096 "f32" [0; 1] [4; 4] 4) = Ok false.
Proof.
  apply check_storage_contiguous_rejects; [reflexivity|discriminate|].
  right. exists 0. split; [constructor|lia].
Defined.







Lemma prod_ge_1 l : Forall (λ d, 2 ≤ d) l → 1 ≤ prod l.
Proof. unfold prod. induction 1; simpl; nia. Qed.

Lemma row_major_length shape : length (row_major shape) = length shape.
Proof. induction shape; simpl; congruence. Qed.

Lemma row_major_lookup shape (i : nat) :
  (i < length shape)%nat →
  row_major shape !! i = Some (prod (drop (S i) shape)).
Proof.
  revert i. induction shape as [|d shape IH]; intros [|i] Hi; simpl in *;
    try lia; [done|].
  apply IH. lia.
Qed.

Lemma row_major_descending shape (i j : nat) :
  Forall (λ d, 2 ≤ d) shape →
  (i < j < length shape)%nat →
  default 0 (row_major shape !! j) < default 0 (row_major shape !! i).
Proof.
  intros Hge Hij. rewrite !row_major_lookup by lia. simpl.
  replace (S i) with (S i + 0)%nat by lia.
  replace (S j) with (S i + (j - i))%nat by lia.
  rewrite <- !drop_drop.
  assert (Forall (λ d, 2 ≤ d) (drop (S i) shape)) as Hd
    by by apply Forall_drop.
  assert (j - i - 1 < length (drop (S i) shape))%nat as Hlt
    by (rewrite length_drop; lia).
  revert Hd Hlt. generalize (drop (S i) shape).
  replace (j - i)%nat with (S (j - i - 1)) by lia.
  generalize (j - i - 1)%nat. clear. intros n l. rewrite drop_0.
  revert n. induction l as [|d l IH]; intros n Hge Hn; simpl in *; [lia|].
  inversion_clear Hge as [|?? Hd Hl].
  pose proof (prod_ge_1 l Hl) as H1.
  destruct n as [|n].
  - rewrite drop_0. unfold prod in *. simpl. nia.
  - specialize (IH n Hl ltac:(lia)). simpl in IH.
    unfold prod in *. simpl. nia.
Qed.

Lemma seq_StronglySorted (R : relation nat) s n :
  (∀ i j, (s ≤ i < j)%nat → (j < s + n)%nat → R i j) →
  StronglySorted R (seq s n).
Proof.
  revert s. induction n as [|n IH]; intros s HR; simpl; constructor.
  - apply IH. intros i j ??. apply HR; lia.
  - apply Forall_forall. intros j Hj. apply elem_of_seq in Hj.
    apply HR; lia.
Qed.

Lemma row_major_order p dt shape es :
  Forall (λ d, 2 ≤ d) shape →
  stride_order (mkTorch p dt (row_major shape) shape es)
  = reverse (seq 0 (length shape)).
Proof.
  intros Hge. unfold stride_order. simpl. rewrite row_major_length.
  apply sorted_descending, seq_StronglySorted.
  intros i j Hij Hj. apply row_major_descending; [done|lia].
Qed.

Lemma row_major_walk p dt shape es (m : nat) :
  (m ≤ length shape)%nat →
  contiguous_walk (mkTorch p dt (row_major shape) shape es)
    (length shape - m) (prod (drop m shape)) (reverse (seq 0 m))
  = Ok true.
Proof.
  induction m as [|m IH]; intros Hm; [done|].
  rewrite seq_S, reverse_app. simpl.
  unfold getitem. rewrite row_major_lookup by lia.
  destruct (lookup_lt_is_Some_2 shape m ltac:(lia)) as [d Hd].
  rewrite Hd. simpl.
  assert (bool_decide ((length shape - S m)%nat = 0%nat)
          && bool_decide (prod (drop (S m) shape) ≠ 1) = false) as ->.
  { case_bool_decide as Hz; [|done]. simpl.
    rewrite drop_ge by lia.
    by rewrite bool_decide_eq_false_2 by (intros H; by apply H). }
  rewrite (bool_decide_eq_false_2 (prod (drop (S m) shape) ≠ _))
    by (intros H; by apply H).
  rewrite andb_false_r.
  replace (S (length shape - S m)) with (length shape - m)%nat by lia.
  replace (prod (drop (S m) shape) * d) with (prod (drop m shape)).
  - apply IH. lia.
  - rewrite (drop_S shape d m Hd). unfold prod. simpl. lia.
Qed.

(** A dense row-major tensor in which every dimension has at least two
    elements is accepted, whatever its number of dimensions. *)
Theorem check_storage_contiguous_row_major (p : Z) (dt : string)
    (shape : list Z) (es : Z) :
  Forall (λ d, 2 ≤ d) shape →
  _check_storage_contiguous (mkTorch p dt (row_major shape) shape es)
  = Ok true.
Proof.
  intros Hge. unfold _check_storage_contiguous.
  rewrite row_major_order by done.
  pose proof (row_major_walk p dt shape es (length shape) (le_n _)) as Hwalk.
  by rewrite Nat.sub_diag, drop_all in Hwalk.
Qed.

Lemma check_storage_contiguous_row_major_witness :
  _check_storage_contiguous (mkTorch 4096 "f32" [12; 4; 1] [2; 3; 4] 4)
  = Ok true.
Proof.
  apply (check_storage_contiguous_row_major 4096 "f32" [2; 3; 4] 4).
  repeat constructor; lia.
Defined.

(** ** Which cell a sampling target selects *)




(** ** The trace of the grid loop *)

Lemma with_records_app rs1 rs2 st :
  with_records rs2 (with_records rs1 st) = with_records (rs1 ++ rs2) st.
Proof.
  unfold with_records. simpl. rewrite length_alter, list_alter_alter_eq.
  f_equal. apply list_alter_ext; [|done].
  intros l _. unfold launch_with. simpl. by rewrite <- (assoc_L (++)).
Qed.

Lemma with_grid_idx_same st : with_grid_idx (grid_idx st) st = st.
Proof. by destruct st. Qed.

Lemma runs_for_foldl {A} (Inv : RecordBuilder → Prop) (P : A → Prop)
    (body : A → M unit) (f : RecordBuilder → A → RecordBuilder) l :
  (∀ x s, P x → Inv s → runs (body x) s (f s x) ∧ Inv (f s x)) →
  Forall P l →
  ∀ st, Inv st → runs (for_ l body) st (foldl f st l) ∧ Inv (foldl f st l).
Proof.
  intros Hbody. induction 1 as [|x l Hx Hl IH]; intros st Hinv; simpl.
  - by split.
  - destruct (Hbody x st Hx Hinv) as [Hrun Hinv'].
    destruct (IH _ Hinv') as [Hrest Hinv''].
    split; [|done]. by eapply runs_for_cons.
Qed.

Lemma range_below n : Forall (λ x, x < n) (range n).
Proof.
  apply Forall_forall. intros x Hx. apply elem_of_seqZ in Hx. lia.
Qed.

Lemma visit_run recs st nx ny nz x y z :
  launches st ≠ [] → grid_dim st = (nx, ny, nz) →
  x < nx → y < ny → z < nz →
  runs (set_grid_idx x y z;; for_ (recs x y z) add_record) st
       (visit recs st (x, y, z))
  ∧ launches (visit recs st (x, y, z)) ≠ []
  ∧ grid_dim (visit recs st (x, y, z)) = (nx, ny, nz).
Proof.
  intros Hne Hdim Hx Hy Hz. unfold visit. simpl. split_and!.
  - eapply runs_seq; [by eapply set_grid_idx_ok|].
    rewrite <- (record_all_cons (Grid (x, y, z)) (recs x y z)).
    apply for_add_record_run. by apply record_all_launches.
  - by apply record_all_launches.
  - unfold record_all. by destruct (sampled _).
Qed.

Lemma foldl_cells {S} (f : S → Z * Z * Z → S) lx ly lz : ∀ s,
  foldl (λ s x, foldl (λ s y, foldl (λ s z, f s (x, y, z)) s lz) s ly) s lx
  = foldl f s (x ← lx; y ← ly; z ← lz; [(x, y, z)]).
Proof.
  induction lx as [|x lx IHx]; intros s; [done|].
  simpl. rewrite foldl_app, <- IHx. f_equal. clear IHx.
  revert s. induction ly as [|y ly IHy]; intros s; [done|].
  simpl. rewrite foldl_app, <- IHy. f_equal. clear IHy.
  revert s. induction lz as [|z lz IHz]; intros s; [done|].
  simpl. by rewrite <- IHz.
Qed.

Lemma bind_all_nil {A B} (f : A → list B) (l : list A) :
  (∀ x, f x = []) → l ≫= f = [].
Proof.
  intros Hf. induction l as [|x l IH]; [done|].
  by rewrite bind_cons, Hf, IH.
Qed.

Lemma cell_trace_visit recs st c c' :
  cell_trace recs (visit recs st c) c' = cell_trace recs st c'.
Proof.
  unfold cell_trace, visit, record_all.
  by destruct (sampled (with_grid_idx c st)).
Qed.

Lemma foldl_visit recs cs : ∀ st,
  foldl (visit recs) st cs
  = with_grid_idx (default (grid_idx st) (last cs))
      (with_records (cs ≫= cell_trace recs st) st).
Proof.
  induction cs as [|c cs IH]; intros st; simpl.
  - by rewrite with_records_nil, with_grid_idx_same.
  - rewrite IH.
    assert (cs ≫= cell_trace recs (visit recs st c)
            = cs ≫= cell_trace recs st) as ->.
    { clear. induction cs as [|c' cs IH]; [done|].
      by rewrite !bind_cons, IH, cell_trace_visit. }
    assert (default (grid_idx (visit recs st c)) (last cs)
            = default (grid_idx st) (last (c :: cs))) as ->.
    { rewrite last_cons. destruct (last cs); [done|]. simpl.
      unfold visit, record_all. by destruct (sampled _). }
    unfold visit, record_all, cell_trace.
    destruct (sampled (with_grid_idx c st)); simpl app.
    + by rewrite with_records_app.
    + done.
Qed.

Lemma grid_loop_run (st : RecordBuilder) (nx ny nz : Z)
    (recs : Z → Z → Z → list trace_record) :
  launches st ≠ [] →
  grid_dim st = (nx, ny, nz) →
  runs (grid_loop nx ny nz (λ x y z, for_ (recs x y z) add_record)) st
       (with_grid_idx (default (grid_idx st) (last (cells nx ny nz)))
          (with_records (cells nx ny nz ≫= cell_trace recs st) st)).
Proof.
  intros Hne Hdim.
  set (Inv := λ s : RecordBuilder,
                launches s ≠ [] ∧ grid_dim s = (nx, ny, nz)).
  rewrite <- foldl_visit.
  unfold cells. rewrite <- foldl_cells. unfold grid_loop.
  eapply (runs_for_foldl Inv (λ x, x < nx));
    [|apply range_below|by split].
  intros x s Hx Hs.
  eapply (runs_for_foldl Inv (λ y, y < ny));
    [|apply range_below|done].
  intros y s' Hy Hs'.
  eapply (runs_for_foldl Inv (λ z, z < nz));
    [|apply range_below|done].
  intros z s'' Hz [Hne'' Hdim''].
  destruct (visit_run recs s'' nx ny nz x y z Hne'' Hdim'' Hx Hy Hz)
    as (? & ? & ?).
  by split.
Qed.

Lemma cells_empty nx ny nz : nx ≤ 0 ∨ ny ≤ 0 ∨ nz ≤ 0 → cells nx ny nz = [].
Proof.
  intros Hempty. unfold cells, range.
  destruct Hempty as [H|[H|H]].
  - by rewrite (seqZ_nil 0 nx) by lia.
  - rewrite (seqZ_nil 0 ny) by lia. by apply bind_all_nil.
  - rewrite (seqZ_nil 0 nz) by lia.
    apply bind_all_nil. intros x. by apply bind_all_nil.
Qed.

(** The grid loop visits the cells with x outermost and z innermost, each
    coordinate from 0 up to its bound, and leaves in the active launch, after
    what was there, the trace of each cell in that order: for a cell in which
    the sampling condition holds its [Grid] marker followed by the records of
    the kernel, for any other cell nothing.  The active index ends at the
    last cell visited; a grid with a dimension of 0 or less visits no cell
    and leaves the recorder as it was. *)
Theorem grid_loop_trace (st : RecordBuilder) (nx ny nz : Z)
    (recs : Z → Z → Z → list trace_record) :
  launches st ≠ [] →
  grid_dim st = (nx, ny, nz) →
  grid_loop nx ny nz (λ x y z, for_ (recs x y z) add_record) st
  = (Ok (), with_grid_idx (default (grid_idx st) (last (cells nx ny nz)))
              (with_records (cells nx ny nz ≫= cell_trace recs st) st))
  ∧ (nx ≤ 0 ∨ ny ≤ 0 ∨ nz ≤ 0 →
     grid_loop nx ny nz (λ x y z, for_ (recs x y z) add_record) st
     = (Ok (), st)).
Proof.
  intros Hne Hdim.
  pose proof (grid_loop_run st nx ny nz recs Hne Hdim) as Hrun.
  split; [exact Hrun|].
  intros Hempty. rewrite Hrun, (cells_empty _ _ _ Hempty).
  simpl. by rewrite with_records_nil, with_grid_idx_same.
Qed.

Lemma grid_loop_trace_witness :
  grid_loop 1 2 2 (λ x y z, for_ [MakeRange x z] add_record)
    (mkBuilder [mkLaunch (1, 2, 2) [] []] (Some [0; 1; 0]) (0, 0, 0) (1, 2, 2))
  = (Ok (), mkBuilder
              [mkLaunch (1, 2, 2) [] [Grid (0, 1, 0); MakeRange 0 0]]
              (Some [0; 1; 0]) (0, 1, 1) (1, 2, 2)).
Proof.
  destruct (grid_loop_trace
    (mkBuilder [mkLaunch (1, 2, 2) [] []] (Some [0; 1; 0]) (0, 0, 0) (1, 2, 2))
    1 2 2 (λ x y z, [MakeRange x z])) as [Hrun _];
    [discriminate|reflexivity|].
  rewrite Hrun. reflexivity.
Defined.

(** ** The executor from arguments to trace *)

Lemma collect_tensors_checked constexprs args : ∀ acc,
  (Forall (λ t, _check_storage_contiguous t = Ok true)
          (checked_tensors constexprs args) →
   collect_tensors constexprs args acc
   = Ok (acc ++ (descriptor <$> checked_tensors constexprs args)))
  ∧ (∀ ts, collect_tensors constexprs args acc = Ok ts →
       Forall (λ t, _check_storage_contiguous t = Ok true)
              (checked_tensors constexprs args)
       ∧ ts = acc ++ (descriptor <$> checked_tensors constexprs args)).
Proof.
  induction args as [|[name arg] args IH]; intros acc; simpl.
  - rewrite app_nil_r. split; [done|]. by intros ts [= <-].
  - case_bool_decide; [apply IH|].
    destruct arg as [t|v]; [|apply IH].
    destruct (IH (acc ++ [descriptor t])) as [IHok IHinv].
    rewrite <- (assoc_L (++)) in IHok, IHinv. split.
    + intros Hall. inversion_clear Hall as [|?? Ht Hrest].
      rewrite Ht. simpl. by apply IHok.
    + intros ts.
      destruct (_check_storage_contiguous t) as [[|]|e] eqn:Hc; simpl;
        [|done|done].
      intros Hts. destruct (IHinv ts Hts) as [Hall ->].
      split; [by constructor|done].
Qed.

(** The executor registers a descriptor for each argument that has a
    [data_ptr] and is not named as a constexpr, in argument order, and it
    gets as far as that exactly when each of them passes the contiguity
    check; a tensor passed under a constexpr name is neither checked nor
    registered. *)
Theorem collect_tensors_registers (constexprs : list string)
    (args : list (string * kernel_arg)) (ts : list Tensor) :
  collect_tensors constexprs args [] = Ok ts
  ↔ Forall (λ t, _check_storage_contiguous t = Ok true)
           (checked_tensors constexprs args)
    ∧ ts = descriptor <$> checked_tensors constexprs args.
Proof.
  destruct (collect_tensors_checked constexprs args []) as [Hok Hinv].
  split.
  - apply Hinv.
  - intros [Hall ->]. by apply Hok.
Qed.

Lemma collect_tensors_registers_witness :
  collect_tensors ["w_ptr"]
    [("x_ptr", TensorArg (mkTorch 4096 "f32" [4; 1] [4; 4] 4));
     ("w_ptr", TensorArg (mkTorch 8192 "f32" [8; 2] [4; 4] 4));
     ("n", ValueArg 16)] []
  = Ok [mkTensor 4096 "f32" [4; 1] [4; 4] 4].
Proof.
  apply (collect_tensors_registers ["w_ptr"]
    [("x_ptr", TensorArg (mkTorch 4096 "f32" [4; 1] [4; 4] 4));
     ("w_ptr", TensorArg (mkTorch 8192 "f32" [8; 2] [4; 4] 4));
     ("n", ValueArg 16)]).
  split; [|reflexivity]. by repeat constructor.
Defined.

(** A call whose checked arguments are all contiguous and whose grid has at
    most three components opens one launch after those already there, with
    the grid padded with ones, the descriptors of the checked arguments in
    ascending order of base address, and the trace of the grid loop; earlier
    launches and the sampling target are as before. *)
Theorem grid_executor_call_trace (constexprs : list string) (grid : list Z)
    (recs : Z → Z → Z → list trace_record)
    (args : list (string * kernel_arg)) (st : RecordBuilder) (nx ny nz : Z) :
  Forall (λ t, _check_storage_contiguous t = Ok true)
         (checked_tensors constexprs args) →
  padded grid = Some (nx, ny, nz) →
  let opened :=
    mkBuilder
      (launches st
       ++ [mkLaunch (nx, ny, nz)
             (sorted ptr (descriptor <$> checked_tensors constexprs args)) []])
      (sampling_grid_idx st) (grid_idx st) (nx, ny, nz) in
  _grid_executor_call constexprs grid
    (λ x y z, for_ (recs x y z) add_record) false args st
  = (Ok (), mkBuilder
              (launches st
               ++ [mkLaunch (nx, ny, nz)
                     (sorted ptr
                        (descriptor <$> checked_tensors constexprs args))
                     (cells nx ny nz ≫= cell_trace recs opened)])
              (sampling_grid_idx st)
              (default (grid_idx st) (last (cells nx ny nz)))
              (nx, ny, nz)).
Proof.
  intros Hall Hgrid opened. unfold _grid_executor_call.
  assert (lift (collect_tensors constexprs args []) st
          = (Ok (descriptor <$> checked_tensors constexprs args), st)) as Hts.
  { unfold lift.
    by rewrite (proj1 (collect_tensors_checked constexprs args []) Hall). }
  rewrite (bind_ok _ _ _ _ _ Hts).
  assert (match grid with
          | [] => mret (1, 1, 1)
          | [a] => mret (a, 1, 1)
          | [a; b] => mret (a, b, 1)
          | [a; b; c] => mret (a, b, c)
          | _ => raise AssertionError
          end st = (Ok (nx, ny, nz), st)) as Hg.
  { destruct grid as [|a [|b [|c [|d grid]]]]; simpl in Hgrid;
      by simplify_eq. }
  rewrite (bind_ok _ _ _ _ _ Hg).
  rewrite (bind_ok (set_grid_dim nx ny nz) _ st () _ eq_refl).
  rewrite (bind_ok _ _ _ _ _
             (add_tensors_run
                (mkBuilder (launches st ++ [mkLaunch (nx, ny, nz) [] []])
                           (sampling_grid_idx st) (grid_idx st) (nx, ny, nz))
                (launches st) (mkLaunch (nx, ny, nz) [] [])
                (descriptor <$> checked_tensors constexprs args) eq_refl)).
  simpl.
  rewrite (bind_ok _ _ _ _ _
             (sort_tensor_handles_run
                (mkBuilder
                   (launches st
                    ++ [mkLaunch (nx, ny, nz)
                          (descriptor <$> checked_tensors constexprs args) []])
                   (sampling_grid_idx st) (grid_idx st) (nx, ny, nz))
                (launches st)
                (mkLaunch (nx, ny, nz)
                   (descriptor <$> checked_tensors constexprs args) [])
                eq_refl)).
  simpl. fold opened.
  rewrite (grid_loop_run opened nx ny nz recs);
    [|by destruct (launches st)|done].
  f_equal. unfold with_grid_idx, with_records, opened. simpl.
  by rewrite alter_active.
Qed.

Lemma grid_executor_call_trace_witness :
  _grid_executor_call ["BLOCK"] [2]
    (λ x y z, for_ [MakeRange 0 8] add_record) false
    [("x_ptr", TensorArg (mkTorch 4096 "f32" [4; 1] [4; 4] 4));
     ("BLOCK", ValueArg 8);
     ("z_ptr", TensorArg (mkTorch 1024 "f32" [1] [16] 4))] fresh
  = (Ok (), mkBuilder
              [mkLaunch (2, 1, 1)
                 [mkTensor 1024 "f32" [1] [16] 4;
                  mkTensor 4096 "f32" [4; 1] [4; 4] 4]
                 [Grid (0, 0, 0); MakeRange 0 8;
                  Grid (1, 0, 0); MakeRange 0 8]]
              None (1, 0, 0) (2, 1, 1)).
Proof.
  rewrite (grid_executor_call_trace ["BLOCK"] [2] (λ x y z, [MakeRange 0 8])
             _ fresh 2 1 1); [reflexivity| |reflexivity].
  by repeat constructor.
Defined.

(** A grid of more than three components ends the call in an exception
    before a launch is opened: the recorder is as it was.  The exception is
    the assertion error of the grid when the checked arguments are all
    contiguous. *)
Theorem grid_executor_call_grid_too_long (constexprs : list string)
    (grid : list Z) (fn : Z → Z → Z → M unit)
    (args : list (string * kernel_arg)) (st : RecordBuilder) :
  (3 < length grid)%nat →
  (∃ e, _grid_executor_call constexprs grid fn false args st = (Raise e, st))
  ∧ (Forall (λ t, _check_storage_contiguous t = Ok true)
            (checked_tensors constexprs args) →
     _grid_executor_call constexprs grid fn false args st
     = (Raise AssertionError, st)).
Proof.
  intros Hlen.
  destruct grid as [|a [|b [|c [|d grid]]]]; simpl in Hlen; try lia.
  unfold _grid_executor_call. unfold_M. split.
  - destruct (collect_tensors constexprs args []) as [ts|e]; simpl; eauto.
  - intros Hall.
    by rewrite (proj1 (collect_tensors_checked constexprs args []) Hall).
Qed.

Lemma grid_executor_call_grid_too_long_witness :
  _grid_executor_call [] [2; 2; 2; 2] (λ x y z, mret ()) false
    [("x_ptr", TensorArg (mkTorch 4096 "f32" [4; 1] [4; 4] 4))]
    three_tensors_st
  = (Raise AssertionError, three_tensors_st).
Proof.
  apply (grid_executor_call_grid_too_long [] [2; 2; 2; 2] (λ x y z, mret ())
           [("x_ptr", TensorArg (mkTorch 4096 "f32" [4; 1] [4; 4] 4))]
           three_tensors_st); [simpl; lia|].
  by repeat constructor.
Defined.

(** ** Invariants over sequences of calls *)

Lemma set_grid_idx_in_bounds st nx ny nz x y z :
  grid_dim st = (nx, ny, nz) → x < nx → y < ny → z < nz →
  set_grid_idx x y z st
  = add_record (Grid (x, y, z)) (with_grid_idx (x, y, z) st).
Proof.
  intros Hdim Hx Hy Hz. destruct st as [ls s gi gd]. simpl in Hdim.
  subst gd. unfold set_grid_idx. unfold_M. simpl. unfold assert.
  rewrite !bool_decide_eq_true_2 by done. by unfold_M.
Qed.

Lemma check_out_of_bounds_access_state ptrs st :
  (check_out_of_bounds_access ptrs st).2 = st.
Proof.
  destruct (nd_data ptrs !! 0%nat) as [a|] eqn:H0.
  - rewrite (check_out_of_bounds_access_run _ _ _ H0).
    pose proof (get_tensor_ptr_state a st) as Hst.
    by destruct (get_tensor_ptr a st) as [[t|e] st1].
  - rewrite check_out_of_bounds_access_empty; [done|].
    by destruct (nd_data ptrs).
Qed.

Lemma no_launch_calls_aux st r :
  launches st = [] →
  add_record r st = (Raise IndexError, st) ∨ add_record r st = (Ok (), st).
Proof.
  intros Hl. unfold add_record, active_launch. unfold_M.
  destruct (sampled st); [left|by right]. by rewrite Hl.
Qed.

Lemma add_record_effect c r st0 st :
  launches st = launches st0 → grid_dim st = grid_dim st0 →
  (∀ idx, r = Grid idx →
     c = CallAddRecord (Grid idx) ∨ below idx (grid_dim st0)) →
  call_effect c st0 (add_record r st).2.
Proof.
  intros Hls Hdim Hgrid.
  destruct (launches st) as [|a pre _] eqn:Hl using rev_ind.
  - right. right. left.
    destruct (no_launch_calls_aux st r Hl) as [-> | ->]; simpl;
      by rewrite <- ?Hls, <- ?Hdim.
  - rewrite (add_record_run r st) by (rewrite Hl; by destruct pre).
    unfold record_all. destruct (sampled st).
    + right. right. right. exists pre, a, (tensors a), [r].
      simpl. rewrite Hl, alter_active, <- Hls.
      split_and!; try done.
      intros idx Hin. apply list_elem_of_singleton in Hin. by apply Hgrid.
    + right. right. left. by rewrite <- Hls, <- Hdim.
Qed.

Lemma perform_effect c st : call_effect c st (perform c st).2.
Proof.
  destruct c as [|idx|nx ny nz|x y z|ts| |p|r|ptrs mask|ptrs mask]; simpl.
  - by left.
  - right. right. by left.
  - right. left. by exists nx, ny, nz.
  - destruct (grid_dim st) as [[nx ny] nz] eqn:Hdim.
    destruct (decide (x < nx ∧ y < ny ∧ z < nz)) as [(Hx & Hy & Hz)|Hout].
    + rewrite (set_grid_idx_in_bounds st nx ny nz) by done.
      apply add_record_effect; [done|done|].
      intros idx [= <-]. right. by rewrite Hdim.
    + rewrite (set_grid_idx_raises st nx ny nz) by done.
      right. right. by left.
  - destruct (launches st) as [|a pre _] eqn:Hl using rev_ind.
    + right. right. left.
      by rewrite (proj1 (no_launch_calls st (Grid (0, 0, 0)) ts Hl)).
    + rewrite (add_tensors_run st pre a ts Hl).
      right. right. right. exists pre, a, (tensors a ++ ts), []. simpl.
      rewrite app_nil_r. split_and!; try done.
      * by apply submseteq_inserts_r.
      * intros idx Hin. by apply elem_of_nil in Hin.
  - destruct (launches st) as [|a pre _] eqn:Hl using rev_ind.
    + right. right. left.
      by rewrite (proj1 (proj2 (no_launch_calls st (Grid (0, 0, 0)) [] Hl))).
    + rewrite (sort_tensor_handles_run st pre a Hl).
      right. right. right. exists pre, a, (sorted ptr (tensors a)), []. simpl.
      rewrite app_nil_r. split_and!; try done.
      * apply Permutation_submseteq. by rewrite sorted_perm.
      * intros idx Hin. by apply elem_of_nil in Hin.
  - right. right. left. unfold_M.
    pose proof (get_tensor_ptr_state p st) as Hst.
    destruct (get_tensor_ptr p st) as [[t|e] st1]; simpl in *; by subst.
  - apply add_record_effect; [done|done|].
    intros idx ->. by left.
  - unfold create_masked_load. unfold_M.
    pose proof (check_out_of_bounds_access_state ptrs st) as Hst.
    destruct (check_out_of_bounds_access ptrs st)
      as [[[[[[t valid] invalid] corrected] raw]|e] st1]; simpl in Hst;
      subst st1.
    + by apply add_record_effect.
    + right. right. by left.
  - unfold create_masked_store. unfold_M.
    pose proof (check_out_of_bounds_access_state ptrs st) as Hst.
    destruct (check_out_of_bounds_access ptrs st)
      as [[[[[[t valid] invalid] corrected] raw]|e] st1]; simpl in Hst;
      subst st1.
    + by apply add_record_effect.
    + right. right. by left.
Qed.

#[local] Instance grown_preorder : PreOrder grown.
Proof.
  split.
  - by intros l.
  - intros l1 l2 l3 (Hg1 & Hr1 & Ht1) (Hg2 & Hr2 & Ht2). split_and!.
    + congruence.
    + by etrans.
    + by etrans.
Qed.

(** The trace is append-only: whatever calls other than [reset] are made,
    returning or raising, the launches before the active one stay as they
    are, and the launch that was active stays in its place with its grid,
    with the records it had as a prefix of its records and with at least the
    tensors it had. *)
Theorem launches_append_only (cs : list call) (st : RecordBuilder)
    (ls : list Launch) (l : Launch) :
  launches st = ls ++ [l] →
  CallReset ∉ cs →
  ∃ l' rest,
    launches (perform_all cs st) = ls ++ l' :: rest ∧ grown l l'.
Proof.
  intros Hl Hreset.
  assert (∃ l' rest, launches st = ls ++ l' :: rest ∧ grown l l') as Hinv
    by by exists l, [].
  clear Hl. revert st Hinv.
  induction cs as [|c cs IH]; intros st Hinv; [done|].
  apply not_elem_of_cons in Hreset as [Hc Hcs].
  simpl. apply IH; [done|]. clear IH Hcs.
  destruct Hinv as (l' & rest & Hl & Hgrown).
  destruct (perform_effect c st)
    as [[-> _]|[(nx & ny & nz & Hst' & _)|[[Hst' _]
       |(pre & a & ts' & rs & Hst & Hst' & Hts & _)]]].
  - done.
  - exists l', (rest ++ [mkLaunch (nx, ny, nz) [] []]).
    split; [|done]. by rewrite Hst', Hl, <- (assoc_L (++)).
  - exists l', rest. by rewrite Hst'.
  - rewrite Hst' . rewrite Hl in Hst.
    destruct rest as [|r0 rest0 _] using rev_ind.
    + apply app_inj_tail in Hst as [<- <-].
      exists (mkLaunch (grid l') ts' (records l' ++ rs)), [].
      split; [done|]. etrans; [exact Hgrown|].
      split_and!; [done|by apply prefix_app_r|done].
    + rewrite app_comm_cons, (assoc_L (++)) in Hst.
      apply app_inj_tail in Hst as [<- <-].
      exists l', (rest0 ++ [mkLaunch (grid r0) ts' (records r0 ++ rs)]).
      split; [|done]. by rewrite <- (assoc_L (++)).
Qed.

Lemma launches_append_only_witness :
  ∃ l' rest,
    launches
      (perform_all
         [CallAddRecord (MakeRange 0 4); CallSetGridDim 1 1 1;
          CallSetGridIdx 5 0 0; CallAddRecord (MakeRange 0 2)]
         three_tensors_st)
    = [] ++ l' :: rest
    ∧ grown three_tensors l'.
Proof.
  apply (launches_append_only _ three_tensors_st [] three_tensors eq_refl).
  intros Hin. repeat (apply elem_of_cons in Hin as [?|Hin]; [done|]).
  by apply elem_of_nil in Hin.
Defined.

(** From a recorder in which the grid of the active launch is the grid used
    for flattening and every [Grid] marker lies below the bounds of its
    launch, any calls, [reset] included, lead to such a recorder again, as
    long as no [Grid] record is handed to [add_record] directly:
    [set_grid_idx] is the only source of markers and it checks them against
    the grid of the launch they go to. *)
Theorem markers_stay_bounded (cs : list call) (st : RecordBuilder) :
  grid_agrees st →
  markers_bounded st →
  (∀ idx, CallAddRecord (Grid idx) ∉ cs) →
  grid_agrees (perform_all cs st) ∧ markers_bounded (perform_all cs st).
Proof.
  revert st. induction cs as [|c cs IH]; intros st HJ HK Hno; [done|].
  simpl. assert (∀ idx, c ≠ CallAddRecord (Grid idx)) as Hc.
  { intros idx ->. apply (Hno idx). constructor. }
  assert (∀ idx, CallAddRecord (Grid idx) ∉ cs) as Hcs.
  { intros idx Hin. apply (Hno idx). by constructor. }
  apply IH; [| |done]; clear IH Hno Hcs.
  - intros l Hlast.
    destruct (perform_effect c st)
      as [[_ Hst']|[(nx & ny & nz & Hst' & Hdim')|[[Hst' Hdim']
         |(pre & a & ts' & rs & Hst & Hst' & _ & Hdim' & _)]]].
    + by rewrite Hst' in Hlast.
    + rewrite Hst', last_snoc in Hlast. injection Hlast as <-.
      by rewrite Hdim'.
    + rewrite Hst' in Hlast. rewrite Hdim'. by apply HJ.
    + rewrite Hst', last_snoc in Hlast. injection Hlast as <-. simpl.
      rewrite Hdim'. apply HJ. by rewrite Hst, last_snoc.
  - intros l idx Hl Hidx.
    destruct (perform_effect c st)
      as [[_ Hst']|[(nx & ny & nz & Hst' & Hdim')|[[Hst' Hdim']
         |(pre & a & ts' & rs & Hst & Hst' & _ & Hdim' & Hrs)]]].
    + rewrite Hst' in Hl. by apply elem_of_nil in Hl.
    + rewrite Hst' in Hl. apply elem_of_app in Hl as [Hl|Hl].
      * by apply (HK l).
      * apply list_elem_of_singleton in Hl. subst l.
        by apply elem_of_nil in Hidx.
    + rewrite Hst' in Hl. by apply (HK l).
    + rewrite Hst' in Hl. apply elem_of_app in Hl as [Hl|Hl].
      * apply (HK l); [|done]. rewrite Hst. apply elem_of_app. by left.
      * apply list_elem_of_singleton in Hl. subst l. simpl in *.
        apply elem_of_app in Hidx as [Hidx|Hidx].
        -- apply (HK a); [|done]. rewrite Hst. apply elem_of_app. right.
           constructor.
        -- destruct (Hrs idx Hidx) as [->|Hbelow]; [by destruct (Hc idx)|].
           rewrite (HJ a); [done|]. by rewrite Hst, last_snoc.
Qed.

Lemma markers_stay_bounded_witness :
  markers_bounded
    (perform_all
       [CallSetGridDim 2 2 1; CallSetGridIdx 1 1 0; CallSetGridIdx 2 0 0;
        CallAddRecord (MakeRange 0 2); CallReset; CallSetGridDim 1 1 1;
        CallSetGridIdx 0 0 0]
       fresh).
Proof.
  apply (markers_stay_bounded _ fresh).
  - by intros l [=].
  - intros l idx Hl. by apply elem_of_nil in Hl.
  - intros idx Hin. repeat (apply elem_of_cons in Hin as [?|Hin]; [done|]).
    by apply elem_of_nil in Hin.
Defined.

(** ** The wrappers and the functions they wrap *)

Lemma add_record_state_bind {R} (m : M R) r st :
  launches st ≠ [] →
  (add_record r;; m) st = m (record_all [r] st).
Proof. intros Hne. by rewrite (bind_ok _ _ _ _ _ (add_record_run r st Hne)). Qed.

Lemma record_after {W} (fn : M (ndarray W)) (mk : ndarray W → trace_record)
    st :
  (ret ← fn; add_record (mk ret);; mret ret) st
  = match fn st with
    | (Ok ret, st') =>
        match add_record (mk ret) st' with
        | (Ok _, st'') => (Ok ret, st'')
        | (Raise e, st'') => (Raise e, st'')
        end
    | (Raise e, st') => (Raise e, st')
    end.
Proof.
  unfold_M. destruct (fn st) as [[ret|e] st']; [|done].
  by destruct (add_record (mk ret) st') as [[[]|e] st''].
Qed.

(** The wrappers of the make-range, load and store record first and run the
    wrapped function after: it starts from the recorder that has the record,
    and the record stays when the function raises.  The wrappers of binary
    operation, dot, expand-dims and reduce run the wrapped function first and
    record after: nothing is recorded when the function raises, and when it
    returns its result is passed through with the record added to the
    recorder the function left. *)
Theorem wrappers_record_order (st : RecordBuilder) :
  launches st ≠ [] →
  (∀ R (fn : Z → Z → M R) start stop,
     _create_make_range fn start stop st
     = fn start stop (record_all [MakeRange start stop] st))
  ∧ (∀ O R (fn : ndarray Z → ndarray bool → O → M R) ptrs mask rest
       t valid invalid corrected raw,
       check_out_of_bounds_access ptrs st
       = (Ok (t, valid, invalid, corrected, raw), st) →
       _create_masked_load fn ptrs mask rest st
       = fn ptrs mask rest
           (record_all [Load (ptr t) (nd_shape ptrs) corrected
                             (nd_zip_with andb valid mask) invalid raw mask]
                       st))
  ∧ (∀ V O R (fn : ndarray Z → V → ndarray bool → O → M R) ptrs value mask
       rest t valid invalid corrected raw,
       check_out_of_bounds_access ptrs st
       = (Ok (t, valid, invalid, corrected, raw), st) →
       _create_masked_store fn ptrs value mask rest st
       = fn ptrs value mask rest
           (record_all [Store (ptr t) (nd_shape ptrs) corrected
                              (nd_zip_with andb valid mask) invalid raw mask]
                       st))
  ∧ (∀ V W (fn : ndarray V → ndarray V → string → M (ndarray W)) lhs rhs op,
       (∀ e st', fn lhs rhs op st = (Raise e, st') →
          _create_binary_op fn lhs rhs op st = (Raise e, st'))
       ∧ (∀ ret st', fn lhs rhs op st = (Ok ret, st') → launches st' ≠ [] →
            _create_binary_op fn lhs rhs op st
            = (Ok ret, record_all [BinaryOp op (nd_shape lhs) (nd_shape ret)]
                                  st')))
  ∧ (∀ V O (fn : ndarray V → ndarray V → ndarray V → O → M (ndarray V))
       a b d rest,
       (∀ e st', fn a b d rest st = (Raise e, st') →
          _create_dot fn a b d rest st = (Raise e, st'))
       ∧ (∀ ret st', fn a b d rest st = (Ok ret, st') → launches st' ≠ [] →
            _create_dot fn a b d rest st
            = (Ok ret, record_all [Dot (nd_shape a, nd_shape b) (nd_shape d)
                                       (nd_shape ret)] st')))
  ∧ (∀ V (fn : ndarray V → Z → M (ndarray V)) arg axis,
       (∀ e st', fn arg axis st = (Raise e, st') →
          _create_expand_dims fn arg axis st = (Raise e, st'))
       ∧ (∀ ret st', fn arg axis st = (Ok ret, st') → launches st' ≠ [] →
            _create_expand_dims fn arg axis st
            = (Ok ret, record_all [ExpandDims (nd_shape arg) axis
                                              (nd_shape ret)] st')))
  ∧ (∀ V (fn : ndarray V → option Z → option bool → M (ndarray V))
       op_name input axis keep_dims,
       (∀ e st', fn input axis keep_dims st = (Raise e, st') →
          _create_reduce fn op_name input axis keep_dims st = (Raise e, st'))
       ∧ (∀ ret st', fn input axis keep_dims st = (Ok ret, st') →
            launches st' ≠ [] →
            _create_reduce fn op_name input axis keep_dims st
            = (Ok ret, record_all [Reduce (nd_shape input) axis op_name
                                          (default false keep_dims)
                                          (nd_shape ret)] st'))).
Proof.
  intros Hne.
  assert (∀ W (fn : M (ndarray W)) (mk : ndarray W → trace_record),
    (∀ e st', fn st = (Raise e, st') →
       (ret ← fn; add_record (mk ret);; mret ret) st = (Raise e, st'))
    ∧ (∀ ret st', fn st = (Ok ret, st') → launches st' ≠ [] →
         (ret ← fn; add_record (mk ret);; mret ret) st
         = (Ok ret, record_all [mk ret] st'))) as Hafter.
  { intros W fn mk. rewrite record_after. split.
    - by intros e st' ->.
    - intros ret st' -> Hne'. by rewrite (add_record_run _ _ Hne'). }
  split_and!.
  - intros R fn start stop. by apply add_record_state_bind.
  - intros O R fn ptrs mask rest t valid invalid corrected raw Hcheck.
    unfold _create_masked_load.
    rewrite (bind_ok _ _ _ _ _ Hcheck). by apply add_record_state_bind.
  - intros V O R fn ptrs value mask rest t valid invalid corrected raw Hcheck.
    unfold _create_masked_store.
    rewrite (bind_ok _ _ _ _ _ Hcheck). by apply add_record_state_bind.
  - intros V W fn lhs rhs op.
    apply (Hafter W (fn lhs rhs op)
             (λ ret, BinaryOp op (nd_shape lhs) (nd_shape ret))).
  - intros V O fn a b d rest.
    apply (Hafter V (fn a b d rest)
             (λ ret, Dot (nd_shape a, nd_shape b) (nd_shape d) (nd_shape ret))).
  - intros V fn arg axis.
    apply (Hafter V (fn arg axis)
             (λ ret, ExpandDims (nd_shape arg) axis (nd_shape ret))).
  - intros V fn op_name input axis keep_dims.
    apply (Hafter V (fn input axis keep_dims)
             (λ ret, Reduce (nd_shape input) axis op_name
                            (default false keep_dims) (nd_shape ret))).
Qed.

Lemma wrappers_record_order_witness :
  _create_make_range (λ _ _, raise (A:=unit) AssertionError) 0 8
    grid_2_2_1_st
  = (Raise AssertionError,
     mkBuilder [mkLaunch (2, 2, 1) [] [MakeRange 0 8]] None (0, 0, 0)
               (2, 2, 1))
  ∧ _create_binary_op
      (λ _ _ _, raise (A:=ndarray Z) AssertionError)
      (mkArray [2] [1; 2]) (mkArray [2] [3; 4]) "add" grid_2_2_1_st
    = (Raise AssertionError, grid_2_2_1_st).
Proof.
  destruct (wrappers_record_order grid_2_2_1_st) as (Hrange & _ & _ & Hbin & _);
    [discriminate|].
  split.
  - by rewrite Hrange.
  - by apply (Hbin Z Z (λ _ _ _, raise AssertionError)).
Defined.

Lemma create_make_range_plain start stop st :
  _create_make_range (λ _ _, mret ()) start stop st
  = create_make_range start stop st.
Proof.
  unfold _create_make_range, create_make_range. unfold_M.
  by destruct (add_record (MakeRange start stop) st) as [[[]|e] st'].
Qed.

(** ** Sampling targets of other lengths *)

(** A sampling target of more than three components drops every record,
    without an error and also when no grid was declared; the empty tuple
    counts as no target, so that every record is appended. *)
Theorem sampling_target_arity (st : RecordBuilder) (idx : list Z)
    (r : trace_record) :
  sampling_grid_idx st = Some idx →
  ((3 < length idx)%nat → add_record r st = (Ok (), st))
  ∧ (idx = [] → launches st ≠ [] →
     add_record r st = (Ok (), with_records [r] st)).
Proof.
  intros Hs. split.
  - intros Hlen. apply add_record_skipped. unfold sampled. rewrite Hs.
    destruct (grid_dim st) as [[nx ny] nz], (grid_idx st) as [[x y] z].
    by destruct idx as [|a [|b [|c [|d idx]]]]; simpl in Hlen; try lia.
  - intros -> Hne. rewrite (add_record_run r st Hne).
    unfold record_all, sampled. by rewrite Hs.
Qed.

Lemma sampling_target_arity_witness :
  add_record (MakeRange 0 4)
    (mkBuilder [mkLaunch (1, 1, 1) [] []] (Some [0; 0; 0; 0]) (0, 0, 0)
               (1, 1, 1))
  = (Ok (), mkBuilder [mkLaunch (1, 1, 1) [] []] (Some [0; 0; 0; 0])
                      (0, 0, 0) (1, 1, 1)).
Proof.
  apply (sampling_target_arity
           (mkBuilder [mkLaunch (1, 1, 1) [] []] (Some [0; 0; 0; 0])
                      (0, 0, 0) (1, 1, 1))
           [0; 0; 0; 0] (MakeRange 0 4) eq_refl).
  simpl. lia.
Defined.

(** ** The contiguity check does not depend on the order of the
    dimensions *)

Section py_sorted_maps.
Context {A B : Type} (key : B → Z) (f : A → B).

Lemma insert_by_fmap x l :
  insert_by key (f x) (f <$> l) = f <$> insert_by (λ a, key (f a)) x l.
Proof.
  induction l as [|y l IH]; [done|].
  rewrite fmap_cons. cbn [insert_by].
  case_bool_decide; [done|]. by rewrite fmap_cons, IH.
Qed.

Lemma sorted_fmap l : sorted key (f <$> l) = f <$> sorted (λ a, key (f a)) l.
Proof.
  unfold sorted. induction l as [|x l IH]; [done|].
  rewrite fmap_cons. cbn [foldr]. rewrite IH. apply insert_by_fmap.
Qed.
End py_sorted_maps.

#[local] Instance key_le_trans {A} (key : A → Z) : Transitive (key_le key).
Proof. intros a b c. unfold key_le. lia. Qed.

Lemma NoDup_fmap_eq {A B} (f : A → B) (l : list A) x y :
  NoDup (f <$> l) → x ∈ l → y ∈ l → f x = f y → x = y.
Proof.
  induction l as [|a l IH]; intros Hnd Hx Hy Hf; [by apply elem_of_nil in Hx|].
  simpl in Hnd. apply NoDup_cons in Hnd as [Ha Hnd].
  apply elem_of_cons in Hx as [->|Hx], Hy as [->|Hy]; [done| | |by apply IH].
  - exfalso. apply Ha. rewrite Hf. by apply list_elem_of_fmap_2.
  - exfalso. apply Ha. rewrite <- Hf. by apply list_elem_of_fmap_2.
Qed.

Lemma sorted_perm_unique {A} (key : A → Z) (l1 l2 : list A) :
  l1 ≡ₚ l2 → NoDup (key <$> l1) → sorted key l1 = sorted key l2.
Proof.
  intros Hp Hnd. apply (Sorted_unique_strong (key_le key)).
  - intros x1 x2 H1 H2 H12 H21.
    rewrite sorted_perm in H1. rewrite sorted_perm, <- Hp in H2.
    apply (NoDup_fmap_eq key l1); [done|done|done|].
    unfold key_le in *. lia.
  - apply sorted_Sorted.
  - apply sorted_Sorted.
  - by rewrite !sorted_perm.
Qed.

Lemma contiguous_walk_dims t : ∀ indices i p,
  Forall (λ j, is_Some (t_stride t !! j) ∧ is_Some (t_shape t !! j)) indices →
  contiguous_walk t i p indices = Ok (walk_dims i p (dim_of t <$> indices)).
Proof.
  induction indices as [|index rest IH]; intros i p Hrange; [done|].
  inversion_clear Hrange as [|?? [[s Hs] [e He]] Hrest].
  simpl. unfold getitem, stride_of, extent_of. rewrite Hs, He. simpl.
  destruct (bool_decide (i = 0%nat) && bool_decide (s ≠ 1)); [done|].
  destruct (bool_decide (i ≠ 0%nat) && bool_decide (s ≠ p)); [done|].
  by apply IH.
Qed.

Lemma dims_in_order t :
  length (t_shape t) = length (t_stride t) →
  dim_of t <$> seq 0 (length (t_stride t)) = zip (t_stride t) (t_shape t).
Proof.
  intros Hlen. apply list_eq. intros i.
  rewrite list_lookup_fmap, lookup_zip_with.
  unfold dim_of, stride_of, extent_of.
  destruct (decide (i < length (t_stride t))%nat) as [Hi|Hi].
  - rewrite lookup_seq_lt by done. simpl.
    destruct (lookup_lt_is_Some_2 (t_stride t) i Hi) as [s ->].
    destruct (lookup_lt_is_Some_2 (t_shape t) i ltac:(lia)) as [e ->].
    done.
  - rewrite lookup_seq_ge by lia. simpl.
    by rewrite (lookup_ge_None_2 (t_stride t)) by lia.
Qed.

Lemma check_storage_contiguous_dims t :
  length (t_shape t) = length (t_stride t) →
  _check_storage_contiguous t
  = Ok (walk_dims 0 1 (sorted fst (zip (t_stride t) (t_shape t)))).
Proof.
  intros Hlen. unfold _check_storage_contiguous.
  rewrite contiguous_walk_dims by by apply stride_order_lookups.
  f_equal. f_equal. rewrite <- (dims_in_order t Hlen).
  by rewrite (sorted_fmap fst (dim_of t)).
Qed.

(** The check looks at the storage, not at the order in which the
    dimensions are listed: two tensors whose dimensions, as (stride, extent)
    pairs, are a rearrangement of one another get the same answer, provided
    no two dimensions have the same stride.  A transposed or permuted view of
    an accepted tensor whose strides are pairwise distinct is therefore
    accepted.  With a repeated stride the order can matter: shape (1, 4) with
    strides (1, 1) is accepted and its transpose, shape (4, 1) with strides
    (1, 1), is not. *)
Theorem check_storage_contiguous_permuted (t t' : torch_tensor) :
  length (t_shape t) = length (t_stride t) →
  length (t_shape t') = length (t_stride t') →
  zip (t_stride t') (t_shape t') ≡ₚ zip (t_stride t) (t_shape t) →
  NoDup (t_stride t) →
  _check_storage_contiguous t' = _check_storage_contiguous t.
Proof.
  intros Hlen Hlen' Hp Hnd.
  rewrite !check_storage_contiguous_dims by done.
  f_equal. f_equal. symmetry. apply sorted_perm_unique; [done|].
  by rewrite fst_zip by lia.
Qed.

Lemma check_storage_contiguous_permuted_witness :
  _check_storage_contiguous (mkTorch 4096 "f32" [1; 12; 4] [4; 2; 3] 4)
  = _check_storage_contiguous (mkTorch 4096 "f32" [12; 4; 1] [2; 3; 4] 4).
Proof.
  apply check_storage_contiguous_permuted; [reflexivity|reflexivity| |].
  - apply (Permutation_cons_append [(12, 2); (4, 3)] (1, 4)).
  - repeat constructor; intros Hin;
      repeat (apply elem_of_cons in Hin as [?|Hin]; [done|]);
      by apply elem_of_nil in Hin.
Defined.
